(** * pikchr/syntax_tree.py: grammar extraction and graph expansion

    A shallow embedding of [parse], [render] and the loop of [main] of
    [src/pikchr/syntax_tree.py], followed by the properties of the
    specification that were checked against it.

    Text is modelled by [string]; a character is an [ascii], so the model
    covers the code points below 256, on which the character classes
    below agree with Python's [str.isspace], [str.isupper] and the
    [\s] class of [re].  The counter [dbg_count] and the [enumerate]
    index are unbounded Python integers, modelled by [nat]. *)

From Stdlib Require Import Bool Arith Lia List Ascii String.
From Stdlib Require Import Decimal DecimalNat DecimalString Permutation.
Import ListNotations.

#[local] Open Scope string_scope.
#[local] Open Scope list_scope.
#[local] Open Scope nat_scope.

(** ** Characters *)

Module Chars.

Definition code (c : ascii) : nat := nat_of_ascii c.

(** [str.isspace] on one character, which is also the class [\s] of a
    [str] pattern: TAB..CR, FS..US, space, NEL and NBSP. *)
Definition isspace (c : ascii) : bool :=
  let n := code c in
  ((9 <=? n) && (n <=? 13)) || ((28 <=? n) && (n <=? 32))
  || (n =? 133) || (n =? 160).

(** The class [\S]. *)
Definition nonspace (c : ascii) : bool := negb (isspace c).

(** The class [.] under [re.DOTALL]. *)
Definition anychar (_ : ascii) : bool := true.

Definition upper_char (c : ascii) : bool :=
  let n := code c in
  ((65 <=? n) && (n <=? 90)) || ((192 <=? n) && (n <=? 214))
  || ((216 <=? n) && (n <=? 222)).

Definition lower_char (c : ascii) : bool :=
  let n := code c in
  ((97 <=? n) && (n <=? 122)) || (n =? 170) || (n =? 181) || (n =? 186)
  || ((223 <=? n) && (n <=? 246)) || ((248 <=? n) && (n <=? 255)).

Definition newline : ascii := ascii_of_nat 10.

End Chars.

(** ** Operations of [str] *)

Module Str.

Fixpoint existsb (p : ascii -> bool) (s : string) : bool :=
  match s with
  | EmptyString => false
  | String c s' => p c || existsb p s'
  end.

Fixpoint forallb (p : ascii -> bool) (s : string) : bool :=
  match s with
  | EmptyString => true
  | String c s' => p c && forallb p s'
  end.

(** [s.isupper()]: no lowercase character and at least one uppercase
    one (there is no titlecase character below 256). *)
Definition isupper (s : string) : bool :=
  negb (existsb Chars.lower_char s) && existsb Chars.upper_char s.

Fixpoint lstrip (s : string) : string :=
  match s with
  | EmptyString => EmptyString
  | String c s' => if Chars.isspace c then lstrip s' else s
  end.

Fixpoint rstrip (s : string) : string :=
  match s with
  | EmptyString => EmptyString
  | String c s' =>
      match rstrip s' with
      | EmptyString => if Chars.isspace c then EmptyString
                       else String c EmptyString
      | r => String c r
      end
  end.

(** [s.strip()] *)
Definition strip (s : string) : string := rstrip (lstrip s).

(** Membership in a tuple of strings: [x in xs]. *)
Fixpoint mem (x : string) (xs : list string) : bool :=
  match xs with
  | [] => false
  | y :: ys => String.eqb x y || mem x ys
  end.

(** Decimal rendering of a non-negative integer inside an f-string. *)
Definition of_nat (n : nat) : string :=
  NilEmpty.string_of_uint (Nat.to_uint n).

End Str.

(** ** The fragment of [re] that [parse] uses

    A pattern is a sequence of atoms.  The matcher is a backtracking one,
    written in continuation-passing style, and tries the alternatives in
    the order of Python's engine: a greedy repetition tries the longest
    run first, a lazy one the shortest.  A match state is the previous
    character (for [^]), the text that remains, the absolute position and
    the positions recorded at group boundaries. *)

Module Re.

Inductive atom : Type :=
| Bol                                  (* [^] under re.MULTILINE *)
| Lit (c : ascii)                      (* a literal character *)
| Star (p : ascii -> bool)             (* [p*], greedy *)
| Plus (p : ascii -> bool)             (* [p+], greedy *)
| LazyStar (p : ascii -> bool)         (* [p*?] *)
| Mark.                                (* an opening or closing paren *)

Definition pattern : Type := list atom.

(** The result of a match: the group boundaries and the end position. *)
Definition found : Type := (list nat * nat)%type.

Definition cont : Type :=
  option ascii -> string -> nat -> list nat -> option found.

Definition at_line_start (prev : option ascii) : bool :=
  match prev with
  | None => true
  | Some c => Ascii.eqb c Chars.newline
  end.

Fixpoint greedy (p : ascii -> bool) (k : cont)
    (prev : option ascii) (s : string) (i : nat) (marks : list nat)
    : option found :=
  match s with
  | String c s' =>
      if p c then
        match greedy p k (Some c) s' (S i) marks with
        | Some r => Some r
        | None => k prev s i marks
        end
      else k prev s i marks
  | EmptyString => k prev s i marks
  end.

Fixpoint lazy (p : ascii -> bool) (k : cont)
    (prev : option ascii) (s : string) (i : nat) (marks : list nat)
    : option found :=
  match k prev s i marks with
  | Some r => Some r
  | None =>
      match s with
      | String c s' => if p c then lazy p k (Some c) s' (S i) marks else None
      | EmptyString => None
      end
  end.

(** [match_here pat prev s i marks]: the first match of [pat] that
    starts at position [i], where [s] is the text from [i] on. *)
Fixpoint match_here (pat : pattern) : cont :=
  match pat with
  | [] => fun _ _ i marks => Some (marks, i)
  | Bol :: pat' => fun prev s i marks =>
      if at_line_start prev then match_here pat' prev s i marks else None
  | Lit c :: pat' => fun _ s i marks =>
      match s with
      | String d s' =>
          if Ascii.eqb c d then match_here pat' (Some d) s' (S i) marks
          else None
      | EmptyString => None
      end
  | Star p :: pat' => greedy p (match_here pat')
  | Plus p :: pat' => fun _ s i marks =>
      match s with
      | String d s' =>
          if p d then greedy p (match_here pat') (Some d) s' (S i) marks
          else None
      | EmptyString => None
      end
  | LazyStar p :: pat' => lazy p (match_here pat')
  | Mark :: pat' => fun prev s i marks =>
      match_here pat' prev s i (marks ++ [i])
  end.

(** The scanning loop shared by [findall], [sub] and [split]: the
    non-overlapping matches from left to right, each as its start, its
    group boundaries and its end.  [skip] counts the characters still
    covered by the previous match.  The three patterns of [parse] never
    match the empty string, so a match always ends after its start. *)
Fixpoint scan (pat : pattern) (prev : option ascii) (s : string)
    (i skip : nat) : list (nat * list nat * nat) :=
  match s with
  | EmptyString => []
  | String c s' =>
      match skip with
      | S k => scan pat (Some c) s' (S i) k
      | O =>
          match match_here pat prev s i [] with
          | Some (marks, e) =>
              (i, marks, e) :: scan pat (Some c) s' (S i) (e - i - 1)
          | None => scan pat (Some c) s' (S i) 0
          end
      end
  end.

(** The groups of a match, cut out of the whole text. *)
Fixpoint groups (code : string) (marks : list nat) : list string :=
  match marks with
  | a :: b :: rest => substring a (b - a) code :: groups code rest
  | _ => []
  end.

(** [re.findall(pat, code)] for a pattern with groups. *)
Definition findall (pat : pattern) (code : string) : list (list string) :=
  map (fun m => groups code (snd (fst m))) (scan pat None code 0 0).

(** [pat.sub("", s)]: the text outside the matches. *)
Fixpoint remove (ms : list (nat * list nat * nat)) (s : string) (i : nat)
    : string :=
  match s with
  | EmptyString => EmptyString
  | String c s' =>
      match ms with
      | [] => s
      | (b, _, e) :: ms' =>
          if i <? b then String c (remove ms s' (S i))
          else if S i <? e then remove ms s' (S i)
          else remove ms' s' (S i)
      end
  end.

Definition sub_empty (pat : pattern) (s : string) : string :=
  remove (scan pat None s 0 0) s 0.

(** [pat.split(s)]: the pieces between the matches. *)
Fixpoint pieces (ms : list (nat * list nat * nat)) (s : string) (i : nat)
    (cur : string) : list string :=
  match s with
  | EmptyString => [cur]
  | String c s' =>
      match ms with
      | [] => [(cur ++ s)%string]
      | (b, _, e) :: ms' =>
          if i <? b then pieces ms s' (S i) (cur ++ String c EmptyString)%string
          else if S i <? e then pieces ms s' (S i) cur
          else cur :: pieces ms' s' (S i) EmptyString
      end
  end.

Definition split (pat : pattern) (s : string) : list string :=
  pieces (scan pat None s 0 0) s 0 EmptyString.

End Re.

(** ** [parse] *)

(** [re.compile(r"\(.+\)", re.MULTILINE | re.DOTALL)] *)
Definition no_paren : Re.pattern :=
  [Re.Lit "("%char; Re.Plus Chars.anychar; Re.Lit ")"%char].

(** [re.compile(r"\s+", re.MULTILINE | re.DOTALL)] *)
Definition spaces : Re.pattern := [Re.Plus Chars.isspace].

(** [r"^\s*(\S+)\s*::=(.*?)\."] with [re.MULTILINE | re.DOTALL] *)
Definition rule_pattern : Re.pattern :=
  [Re.Bol; Re.Star Chars.isspace;
   Re.Mark; Re.Plus Chars.nonspace; Re.Mark;
   Re.Star Chars.isspace;
   Re.Lit ":"%char; Re.Lit ":"%char; Re.Lit "="%char;
   Re.Mark; Re.LazyStar Chars.anychar; Re.Mark;
   Re.Lit "."%char].

(** The body of the loop of [parse] for one match [(left, right)]. *)
Definition parse_rule (left right : string) : string * list string :=
  (Re.sub_empty no_paren left,
   map (Re.sub_empty no_paren) (Re.split spaces (Str.strip right))).

(** [parse], on the text [code] read from the file: the pairs it yields,
    in order. *)
Definition parse (code : string) : list (string * list string) :=
  map (fun g => parse_rule (nth 0 g EmptyString) (nth 1 g EmptyString))
      (Re.findall rule_pattern code).

Definition nl : string := String Chars.newline EmptyString.

(** ** The rule table and the diagram *)

(** [dd]: a [defaultdict(list)] from a nonterminal to its alternatives.
    A Python dict keeps its keys in insertion order, which [main]
    observes through [enumerate], so the table is an association list
    with distinct keys, oldest first. *)
Definition RuleTable : Type := list (string * list (list string)).

Fixpoint lookup (k : string) (dd : RuleTable) : option (list (list string)) :=
  match dd with
  | [] => None
  | (k', v) :: dd' => if String.eqb k k' then Some v else lookup k dd'
  end.

(** [dd[k]] on a [defaultdict(list)]: a missing key is inserted with a
    fresh empty list, which is returned. *)
Definition dd_getitem (dd : RuleTable) (k : string)
    : list (list string) * RuleTable :=
  match lookup k dd with
  | Some v => (v, dd)
  | None => ([], dd ++ [(k, [])])
  end.

(** [dd[left].append(right)] *)
Fixpoint dd_append (dd : RuleTable) (left : string) (right : list string)
    : RuleTable :=
  match dd with
  | [] => [(left, [right])]
  | (k, v) :: dd' =>
      if String.eqb left k then (k, v ++ [right]) :: dd'
      else (k, v) :: dd_append dd' left right
  end.

(** The first loop of [main]. *)
Definition build_table (rules : list (string * list string)) : RuleTable :=
  fold_left (fun dd r => dd_append dd (fst r) (snd r)) rules [].

(** What a [graphviz.Digraph] accumulates in its body, in order: nodes
    (with the [color] attribute when given), edges, and the subgraphs
    closed so far, each with its name, comment, [node_attr] and body. *)
#[warnings="-register-all"]
Inductive decl : Type :=
| node (name label : string) (color : option string)
| edge (tail_name head_name : string)
| subgraph (name comment : string) (node_attr : list (string * string))
           (body : list decl).

Definition Digraph : Type := list decl.

(** ** [render] *)

Definition subgraphs : list string :=
  [ "basetype"; "between"; "boolproperty"; "colorproperty"; "dashproperty";
    "direction"; "edge"; "even"; "lvalue"; "numproperty"; "print"; "pritem";
    "prsep"; "rvalue"; "savelist"; "withclause"; "optrelexpr" ].

Definition replace : list (string * string) :=
  [ ("EOL", "\\n|;");
    ("", "\<empty string\>");
    ("EDGEPT", "bot|c|e|east|n|ne|north|nw|s|se|south|sw|w|west");
    ("LAST", "last|previous");
    ("PERCENT", "%");
    ("LP", "(");
    ("RP", ")");
    ("LB", "[");
    ("RB", "]");
    ("COMMA", ",");
    ("COLON", ":");
    ("GT", ">");
    ("LT", "<");
    ("EQ", "=");
    ("PLUS", "+");
    ("MINUS", "-");
    ("LRARROW", "\<-\>");
    ("LARROW", "\<-");
    ("RARROW", "-\>");
    ("PLACENAME", "PLACENAME ([A-Z]+)");
    ("CLASSNAME",
     "arc|arrow|box|circle|cylinder|dot|ellipse|file|line|move|oval|spline|text");
    ("even", "UNTIL EVEN WITH|EVEN WITH") ].

Fixpoint assoc (k : string) (l : list (string * string)) : option string :=
  match l with
  | [] => None
  | (k', v) :: l' => if String.eqb k k' then Some v else assoc k l'
  end.

(** [replace.get(orig_value, orig_value)] *)
Definition replace_get (orig_value : string) : string :=
  match assoc orig_value replace with
  | Some v => v
  | None => orig_value
  end.

(** [orig_value in replace] *)
Definition in_replace (orig_value : string) : bool :=
  match assoc orig_value replace with
  | Some _ => true
  | None => false
  end.

(** [f"{a}_{b}_{n}"] *)
Definition fkey (a b : string) (n : nat) : string :=
  (a ++ "_" ++ b ++ "_" ++ Str.of_nat n)%string.

(** What a call leaves behind: a value, or the exception that ends it.
    [RecursionError] is raised when the calls nest deeper than the
    interpreter's limit; [RuntimeError] by a dict iterator that finds
    the size of its dict changed. *)
Inductive result (A : Type) : Type :=
| Ok (a : A)
| RecursionError
| RuntimeError.
Arguments Ok {A} a.
Arguments RecursionError {A}.
Arguments RuntimeError {A}.

(** The objects a call of [render] may mutate: the graph it writes to,
    the table [dd] and the global [dbg_count]. *)
Definition Store : Type := (Digraph * RuleTable * nat)%type.

Definition leaf_color (orig_value value : string) : string :=
  if Str.isupper value || in_replace orig_value then "red" else "blue".

Definition cluster_attr (value : string) : list (string * string) :=
  [("shape", "box"); ("color", "green"); ("label", value)].

Section RenderBody.

(** The recursive call [render(c, dot2_key, item, dd)]. *)
Variable rec : Digraph -> string -> list string -> RuleTable -> nat
               -> result Store.

(** [for item in dd[value]: render(c, dot2_key, item, dd)] *)
Fixpoint render_alts (c : Digraph) (dot2_key : string)
    (alts : list (list string)) (dd : RuleTable) (dbg_count : nat)
    : result Store :=
  match alts with
  | [] => Ok (c, dd, dbg_count)
  | item :: alts' =>
      match rec c dot2_key item dd dbg_count with
      | Ok (c', dd', n') => render_alts c' dot2_key alts' dd' n'
      | RecursionError => RecursionError
      | RuntimeError => RuntimeError
      end
  end.

(** [for orig_value in items: ...], entered with the current [prev]. *)
Fixpoint render_items (dot : Digraph) (dot_key prev : string)
    (items : list string) (dd : RuleTable) (dbg_count : nat)
    : result Store :=
  match items with
  | [] => Ok (dot, dd, dbg_count)
  | orig_value :: items' =>
      let dbg_count := S dbg_count in
      let dot2_key := fkey orig_value dot_key dbg_count in
      let value := replace_get orig_value in
      if Str.mem value subgraphs then
        let dot2_key := fkey value dot_key dbg_count in
        let (alts, dd1) := dd_getitem dd value in
        match render_alts [] dot2_key alts dd1 dbg_count with
        | Ok (c, dd2, n2) =>
            render_items
              (dot ++ [subgraph dot2_key value (cluster_attr value) c;
                       edge prev dot2_key])
              dot_key dot2_key items' dd2 n2
        | RecursionError => RecursionError
        | RuntimeError => RuntimeError
        end
      else
        render_items
          (dot ++ [node dot2_key value (Some (leaf_color orig_value value));
                   edge prev dot2_key])
          dot_key dot2_key items' dd dbg_count
  end.

End RenderBody.

(** [render(dot, dot_key, items, dd)] with the global [dbg_count] passed
    in and out; [depth] is the number of nested calls the interpreter
    still allows. *)
Fixpoint render (depth : nat) (dot : Digraph) (dot_key : string)
    (items : list string) (dd : RuleTable) (dbg_count : nat) : result Store :=
  match depth with
  | O => RecursionError
  | S d => render_items (render d) dot dot_key dot_key items dd dbg_count
  end.

(** ** The second loop of [main] *)

(** [for item in items: render(dot, dot_key, item, dd)] *)
Definition render_rule (depth : nat) : Digraph -> string ->
    list (list string) -> RuleTable -> nat -> result Store :=
  render_alts (render depth).

(** [for idx, (key, items) in enumerate(dd.items()): ...].  [pending]
    holds the entries the iterator has not reached and [size] the size
    of the dict when the iterator was created: every step of the
    iterator, the last one included, first compares it with the current
    size.  ([render] only ever adds keys, so as long as the sizes agree
    the entries not reached are those of the current table.) *)
Fixpoint main_loop (depth : nat) (pending : RuleTable) (idx size : nat)
    (dot : Digraph) (dd : RuleTable) (dbg_count : nat) : result Store :=
  if negb (List.length dd =? size) then RuntimeError
  else
    match pending with
    | [] => Ok (dot, dd, dbg_count)
    | (key, items) :: pending' =>
        if Str.mem key subgraphs then
          main_loop depth pending' (S idx) size dot dd dbg_count
        else
          let dot_key := (key ++ "_" ++ Str.of_nat idx)%string in
          match render_rule depth (dot ++ [node dot_key key None]) dot_key
                            items dd dbg_count with
          | Ok (dot', dd', n') =>
              main_loop depth pending' (S idx) size dot' dd' n'
          | RecursionError => RecursionError
          | RuntimeError => RuntimeError
          end
    end.

(** The Graph Expander: the second loop of [main] on a fresh
    [graphviz.Digraph], started with [dbg_count] at the given value. *)
Definition expand (depth : nat) (dd : RuleTable) (dbg_count : nat)
    : result Store :=
  main_loop depth dd 0 (List.length dd) [] dd dbg_count.

(** [main], up to the call of [dot.render], on the text of the file. *)
Definition main (depth : nat) (code : string) (dbg_count : nat)
    : result Store :=
  expand depth (build_table (parse code)) dbg_count.

(** ** Notions used to state the properties *)

(** The alternatives registered under a name; none when it is missing.
    It is what [for item in dd[value]] iterates over. *)
Definition alts_of (dd : RuleTable) (k : string) : list (list string) :=
  match lookup k dd with
  | Some v => v
  | None => []
  end.

(** The two places that consult the boundary set: the test of
    [main_loop] on a key of the table and the test of [render_items] on
    a symbol. *)
Definition top_level_skips (key : string) : bool := Str.mem key subgraphs.
Definition opens_cluster (orig_value : string) : bool :=
  Str.mem (replace_get orig_value) subgraphs.

(** A declaration without its identifiers: what is left is its kind, its
    label, its color and, for a cluster, its contents. *)
#[warnings="-register-all"]
Inductive shape : Type :=
| shape_node (label : string) (color : option string)
| shape_edge
| shape_subgraph (comment : string) (node_attr : list (string * string))
                 (body : list shape).

Fixpoint shape_of (d : decl) : shape :=
  match d with
  | node _ label color => shape_node label color
  | edge _ _ => shape_edge
  | subgraph _ comment attr body => shape_subgraph comment attr (map shape_of body)
  end.

(** A run seen up to identifiers: the shapes in order, the final table
    and how far the counter advanced. *)
Definition observe (start : nat) (r : result Store)
    : result (list shape * RuleTable * nat) :=
  match r with
  | Ok (dot, dd, n) => Ok (map shape_of dot, dd, n - start)
  | RecursionError => RecursionError
  | RuntimeError => RuntimeError
  end.

(** Two runs of the expander one after the other in one process: the
    module sets [dbg_count] to 0 and the second run finds it where the
    first left it.  The result is the two diagrams. *)
Definition run_twice (depth : nat) (dd : RuleTable)
    : option (Digraph * Digraph) :=
  match expand depth dd 0 with
  | Ok (dot1, _, n1) =>
      match expand depth dd n1 with
      | Ok (dot2, _, _) => Some (dot1, dot2)
      | _ => None
      end
  | _ => None
  end.

(** The identifiers synthesized by chain expansion: those of the colored
    nodes and of the clusters, at any depth.  (The root nodes that [main]
    declares carry no color.) *)
Fixpoint chain_ids (d : decl) : list string :=
  match d with
  | node name _ (Some _) => [name]
  | node _ _ None => []
  | edge _ _ => []
  | subgraph name _ _ body => name :: flat_map chain_ids body
  end.

Definition all_chain_ids (g : Digraph) : list string := flat_map chain_ids g.

(** The clusters declared at the top level of a body for the name [a]. *)
Fixpoint clusters_named (a : string) (g : list decl) : nat :=
  match g with
  | [] => 0
  | subgraph _ comment _ _ :: g' =>
      (if String.eqb comment a then 1 else 0) + clusters_named a g'
  | _ :: g' => clusters_named a g'
  end.

(** The occurrences in a sequence of symbols whose label is [a]. *)
Fixpoint occurrences (a : string) (items : list string) : nat :=
  match items with
  | [] => 0
  | s :: items' =>
      (if String.eqb (replace_get s) a then 1 else 0) + occurrences a items'
  end.

(** A linear chain, as the specification describes it: the declarations
    for a sequence of symbols starting from [root] are, per symbol, a
    node or a cluster followed by the edge from the previous element to
    it; a cluster holds, one after the other, one chain per alternative
    registered under its name, each starting from the cluster's own
    identifier. *)
Inductive chain (alts : string -> list (list string))
    : string -> list string -> list decl -> Prop :=
| chain_nil root : chain alts root [] []
| chain_leaf root s items id color rest :
    opens_cluster s = false ->
    chain alts id items rest ->
    chain alts root (s :: items)
          (node id (replace_get s) (Some color) :: edge root id :: rest)
| chain_cluster root s items id body rest :
    opens_cluster s = true ->
    nested alts id (alts (replace_get s)) body ->
    chain alts id items rest ->
    chain alts root (s :: items)
          (subgraph id (replace_get s) (cluster_attr (replace_get s)) body
             :: edge root id :: rest)
with nested (alts : string -> list (list string))
    : string -> list (list string) -> list decl -> Prop :=
| nested_nil root : nested alts root [] []
| nested_cons root item others out body :
    chain alts root item out ->
    nested alts root others body ->
    nested alts root (item :: others) (out ++ body).

(** A ranking of the boundary names under which expansion is bounded:
    [bounded rank r items] when every symbol of [items] that opens a
    cluster has a rank below [r], and [ranked rank dd] when the
    alternatives of every boundary name stay below its own rank. *)
Definition bounded (rank : string -> nat) (r : nat) (items : list string)
    : bool :=
  forallb (fun s => negb (opens_cluster s) || (rank (replace_get s) <? r))
          items.

Definition ranked (rank : string -> nat) (dd : RuleTable) : bool :=
  forallb (fun e => negb (Str.mem (fst e) subgraphs)
                    || forallb (bounded rank (rank (fst e))) (snd e))
          dd.


(** A call that returns, leaving a table that is still ranked. *)
Definition succeeds (rank : string -> nat) (r : result Store) : Prop :=
  exists out dd' n', r = Ok (out, dd', n') /\ ranked rank dd' = true.

(** What the tables [replace] and [subgraphs] hold, entry by entry: no
    label of [replace] is a boundary name, and [even] is its only key
    that is one. *)
Definition replace_entry_ok (e : string * string) : bool :=
  negb (Str.mem (snd e) subgraphs)
  && (String.eqb (fst e) "even" || negb (Str.mem (fst e) subgraphs)).

(** A small grammar on which the statements below are tried: [edge] and
    [direction] are boundary names, [edge] mentions [direction]. *)
Definition sample_table : RuleTable :=
  [ ("S", [["edge"; "x"; "edge"]; ["GT"; "statement"]]);
    ("edge", [["a"]; ["b"; "direction"]]);
    ("direction", [["UP"]]) ].

Definition sample_rank (s : string) : nat :=
  if String.eqb s "edge" then 1 else 0.

Definition sample_render : Store :=
  Eval vm_compute in
    match render 3 [] "S_0" ["edge"; "x"; "edge"] sample_table 0 with
    | Ok st => st
    | _ => ([], [], 0)
    end.

Definition sample_expand : Store :=
  Eval vm_compute in
    match expand 3 sample_table 0 with
    | Ok st => st
    | _ => ([], [], 0)
    end.

(** The character before the position reached after reading [a], when
    [prev] was the one before [a]. *)
Fixpoint last_char (a : string) (prev : option ascii) : option ascii :=
  match a with
  | EmptyString => prev
  | String c a' => last_char a' (Some c)
  end.

(** [b] does not start with a character of the class [p]. *)
Definition stops (p : ascii -> bool) (b : string) : bool :=
  match b with
  | EmptyString => true
  | String c _ => negb (p c)
  end.

(** Any character but an opening parenthesis. *)
Definition not_lparen (c : ascii) : bool := negb (Ascii.eqb "(" c).

(** The part of [rule_pattern] from the marker on, and that part with
    the group boundary and the blanks before it. *)
Definition from_marker : Re.pattern :=
  [Re.Lit ":"%char; Re.Lit ":"%char; Re.Lit "="%char;
   Re.Mark; Re.LazyStar Chars.anychar; Re.Mark;
   Re.Lit "."%char].

Definition after_left : Re.pattern :=
  Re.Mark :: Re.Star Chars.isspace :: from_marker.

(** Any character but a colon. *)
Definition not_colon (c : ascii) : bool := negb (Ascii.eqb ":" c).

(** A result with [dot] put in front of the graph it holds. *)
Definition frame (dot : Digraph) (r : result Store) : result Store :=
  match r with
  | Ok (out, dd, n) => Ok (dot ++ out, dd, n)
  | RecursionError => RecursionError
  | RuntimeError => RuntimeError
  end.

(** Two results, of runs started with the counter at [n] and at [m], are
    alike when they fail alike or hold graphs of the same shapes, the
    same table and counters that advanced by the same amount. *)
Definition alike (n m : nat) (r1 r2 : result Store) : Prop :=
  match r1, r2 with
  | Ok (o1, d1, n1), Ok (o2, d2, n2) =>
      map shape_of o1 = map shape_of o2 /\ d1 = d2 /\
      exists k, n1 = n + k /\ n2 = m + k
  | RecursionError, RecursionError => True
  | RuntimeError, RuntimeError => True
  | _, _ => False
  end.

(** The characters of a decimal numeral. *)
Definition is_digit (c : ascii) : bool :=
  (48 <=? Chars.code c) && (Chars.code c <=? 57).

(** An identifier is stamped with [c] when it ends in an underscore
    followed by the decimal numeral of [c]. *)
Definition stamped (c : nat) (id : string) : Prop :=
  exists p, id = (p ++ "_" ++ Str.of_nat c)%string.

(** An identifier built by [render] while [dbg_count] went from [lo] to
    [hi]: the text of a symbol (or its label), the identifier of the
    enclosing context and a value of the counter in between. *)
Definition synthesized (lo hi : nat) (id : string) : Prop :=
  exists text ctx c, id = fkey text ctx c /\ lo < c <= hi.

(** ** Notions used for the further properties *)

(** The keys of a table, oldest first. *)
Definition keys (dd : RuleTable) : list string := map fst dd.

(** The right-hand sides that a list of rules gives for [k], in order. *)
Definition rights_of (k : string) (rules : list (string * list string))
    : list (list string) :=
  map snd (filter (fun r => String.eqb (fst r) k) rules).

(** Every boundary name that a symbol can have for label has an entry.
    ([even] is the label of no symbol.) *)
Definition boundaries_defined (dd : RuleTable) : bool :=
  forallb (fun b => String.eqb b "even"
                    || match lookup b dd with Some _ => true | None => false end)
          subgraphs.

(** A table in which every boundary name has a rule. *)
Definition full_table : RuleTable :=
  ("S", [["edge"; "PLUS"; "lvalue"]])
    :: map (fun b => (b, [["x"]; ["Y"; "z"]])) subgraphs.

Definition full_expand : Store :=
  Eval vm_compute in
    match expand 2 full_table 0 with
    | Ok st => st
    | _ => ([], [], 0)
    end.

(** The root nodes of a graph: its uncolored nodes, as identifier and
    label. *)
Fixpoint roots (g : Digraph) : list (string * string) :=
  match g with
  | [] => []
  | node name label None :: g' => (name, label) :: roots g'
  | _ :: g' => roots g'
  end.

(** The roots that the loop of [main] declares for the entries of a
    table, the first of which has the index [idx]. *)
Fixpoint enumerate_roots (idx : nat) (dd : RuleTable)
    : list (string * string) :=
  match dd with
  | [] => []
  | (key, _) :: dd' =>
      if Str.mem key subgraphs then enumerate_roots (S idx) dd'
      else ((key ++ "_" ++ Str.of_nat idx)%string, key)
             :: enumerate_roots (S idx) dd'
  end.

(** All the identifiers declared in a graph, at any depth, and all its
    edges. *)
Fixpoint decl_ids (d : decl) : list string :=
  match d with
  | node name _ _ => [name]
  | edge _ _ => []
  | subgraph name _ _ body => name :: flat_map decl_ids body
  end.

Fixpoint decl_edges (d : decl) : list (string * string) :=
  match d with
  | node _ _ _ => []
  | edge t h => [(t, h)]
  | subgraph _ _ _ body => flat_map decl_edges body
  end.

Definition all_ids (g : Digraph) : list string := flat_map decl_ids g.
Definition all_edges (g : Digraph) : list (string * string) :=
  flat_map decl_edges g.

(** [s] ends in an underscore followed by at least one digit. *)
Fixpoint ends_in_stamp (s : string) : bool :=
  match s with
  | EmptyString => false
  | String c s' =>
      (Ascii.eqb c "_" && Str.forallb is_digit s'
       && negb (String.eqb s' EmptyString))
      || ends_in_stamp s'
  end.

(** An identifier made by [render] in a context that is itself
    stamped. *)
Definition nested_id (id : string) : Prop :=
  exists text ctx c c', id = fkey text ctx c /\ stamped c' ctx.

(** The character [c] does not occur in [s]. *)
Definition lacks (c : ascii) (s : string) : bool :=
  Str.forallb (fun x => negb (Ascii.eqb c x)) s.

(** Blanks and tokens one after the other: [w1 t1 w2 t2 ...]. *)
Fixpoint spaced (pairs : list (string * string)) : string :=
  match pairs with
  | [] => EmptyString
  | (w, t) :: pairs' => (w ++ t ++ spaced pairs')%string
  end.

Definition blank (s : string) : bool := Str.forallb Chars.isspace s.

(** A separator: at least one blank. *)
Definition gap_ok (w : string) : bool :=
  negb (String.eqb w EmptyString) && blank w.

(** A word: at least one character, none of them a blank. *)
Definition word_ok (t : string) : bool :=
  negb (String.eqb t EmptyString) && Str.forallb Chars.nonspace t.

Definition pairs_ok (pairs : list (string * string)) : bool :=
  forallb (fun wt => gap_ok (fst wt) && word_ok (snd wt)) pairs.

(** A match moved [d] characters to the right. *)
Definition shift_found (d : nat) (r : Re.found) : Re.found :=
  (map (Nat.add d) (fst r), d + snd r).

Definition shift_match (d : nat) (m : nat * list nat * nat)
    : nat * list nat * nat :=
  (d + fst (fst m), map (Nat.add d) (snd (fst m)), d + snd m).

(** The pattern has no [^]. *)
Definition no_bol (pat : Re.pattern) : bool :=
  forallb (fun a => match a with Re.Bol => false | _ => true end) pat.

(** [rule_pattern] after its [^]. *)
Definition after_bol : Re.pattern :=
  Re.Star Chars.isspace :: Re.Mark :: Re.Plus Chars.nonspace :: after_left.

(** A continuation whose result moves with the text, and one that does
    not look at the previous character. *)
Definition shifts (d : nat) (k : Re.cont) : Prop :=
  forall prev s i mk,
    k prev s (d + i) (map (Nat.add d) mk)
    = option_map (shift_found d) (k prev s i mk).

Definition blind (k : Re.cont) : Prop :=
  forall prev prev' s i mk, k prev s i mk = k prev' s i mk.

(** The text of a rule up to its dot: indentation, left-hand side,
    blanks, the marker, the right-hand side and the dot. *)
Definition rule_text (ind left ws1 body : string) : string :=
  (ind ++ left ++ ws1 ++ "::=" ++ body ++ ".")%string.

(** A token of a right-hand side: a word without a dot; and a sequence
    of blanks and tokens. *)
Definition token_ok (t : string) : bool := word_ok t && lacks "." t.

Definition tokens_ok (pairs : list (string * string)) : bool :=
  forallb (fun wt => gap_ok (fst wt) && token_ok (snd wt)) pairs.

(** A rule printed on one line, [left ::= t1 t2 ... .], and a list of
    rules printed one per line. *)
Definition format_rule (r : string * list string) : string :=
  rule_text "" (fst r) " "
            (spaced (map (fun t => (" ", t)) (snd r)) ++ " ").

Fixpoint format_file (rules : list (string * list string)) : string :=
  match rules with
  | [] => EmptyString
  | r :: rules' => (format_rule r ++ nl ++ format_file rules')%string
  end.

(** A rule that prints and reads back: a left-hand side and at least one
    token, all without blanks and parentheses, the tokens without dots. *)
Definition plain_token (t : string) : bool := token_ok t && lacks "(" t.

Definition rule_ok (r : string * list string) : bool :=
  word_ok (fst r) && lacks "(" (fst r)
  && negb (match snd r with [] => true | _ => false end)
  && forallb plain_token (snd r).

(** The elements of a list in the order in which they first occur,
    those of [seen] left out. *)
Fixpoint first_seen (seen l : list string) : list string :=
  match l with
  | [] => []
  | x :: l' =>
      if Str.mem x seen then first_seen seen l'
      else x :: first_seen (x :: seen) l'
  end.

(** The clusters of a graph, as comment and attributes, and its colored
    nodes, as label and color, at any depth. *)
Fixpoint decl_clusters (d : decl) : list (string * list (string * string)) :=
  match d with
  | subgraph _ comment attr body => (comment, attr) :: flat_map decl_clusters body
  | _ => []
  end.

Fixpoint decl_leaves (d : decl) : list (string * string) :=
  match d with
  | node _ label (Some color) => [(label, color)]
  | node _ _ None => []
  | edge _ _ => []
  | subgraph _ _ _ body => flat_map decl_leaves body
  end.

Definition all_clusters (g : Digraph) := flat_map decl_clusters g.
Definition all_leaves (g : Digraph) := flat_map decl_leaves g.

Definition cluster_ok (ca : string * list (string * string)) : Prop :=
  Str.mem (fst ca) subgraphs = true /\ fst ca <> "even"
  /\ snd ca = cluster_attr (fst ca).

Definition leaf_ok (lc : string * string) : Prop :=
  Str.mem (fst lc) subgraphs = false /\ (snd lc = "red" \/ snd lc = "blue").

(** The color that the specification gives a leaf, told from the raw
    token alone: red for an uppercase token and for a key of the alias
    table, blue for any other. *)
Definition spec_leaf_color (orig_value : string) : string :=
  if Str.isupper orig_value || in_replace orig_value then "red" else "blue".

(** The declarations that the specification asks for a sequence of
    leaves expanded under [dot_key] from the element [prev], the counter
    standing at [n]: per symbol a node with the synthesized identifier,
    the display label and that color, then the edge from the previous
    element. *)
Fixpoint spec_leaves (dot_key prev : string) (items : list string) (n : nat)
    : Digraph :=
  match items with
  | [] => []
  | s :: items' =>
      node (fkey s dot_key (S n)) (replace_get s) (Some (spec_leaf_color s))
        :: edge prev (fkey s dot_key (S n))
        :: spec_leaves dot_key (fkey s dot_key (S n)) items' (S n)
  end.

#[global] Arguments Ascii.eqb : simpl never.
#[global] Arguments Chars.isspace : simpl never.
#[global] Arguments Chars.nonspace : simpl never.
#[global] Arguments Str.mem : simpl never.
#[global] Arguments Str.of_nat : simpl never.
#[global] Arguments replace_get : simpl never.
#[global] Arguments in_replace : simpl never.
#[global] Arguments fkey : simpl never.
#[global] Arguments leaf_color : simpl never.
#[global] Arguments cluster_attr : simpl never.
#[global] Arguments dd_getitem : simpl never.

(** * Properties *)

(** ** Strings *)

Lemma append_assoc (a b c : string) :
  ((a ++ b) ++ c)%string = (a ++ (b ++ c))%string.
Proof. induction a as [|x a IH]; simpl; [reflexivity | now rewrite IH]. Qed.

Lemma length_append (a b : string) :
  String.length (a ++ b) = String.length a + String.length b.
Proof. induction a as [|x a IH]; simpl; [reflexivity | now rewrite IH]. Qed.

Lemma forallb_append (p : ascii -> bool) (a b : string) :
  Str.forallb p (a ++ b) = Str.forallb p a && Str.forallb p b.
Proof.
  induction a as [|x a IH]; simpl; [reflexivity|].
  now rewrite IH, andb_assoc.
Qed.

(** *** Decimal numerals *)

Lemma digits_of_uint (d : uint) :
  Str.forallb is_digit (NilEmpty.string_of_uint d) = true.
Proof. induction d; simpl; auto. Qed.

Lemma digits_of_nat (n : nat) : Str.forallb is_digit (Str.of_nat n) = true.
Proof. apply digits_of_uint. Qed.

Lemma of_nat_inj (n m : nat) : Str.of_nat n = Str.of_nat m -> n = m.
Proof.
  unfold Str.of_nat. intros H.
  apply Unsigned.to_uint_inj.
  assert (E : Some (Nat.to_uint n) = Some (Nat.to_uint m))
    by (rewrite <- !NilEmpty.usu; now rewrite H).
  now injection E.
Qed.

Lemma digits_no_underscore (p q r : string) :
  Str.forallb is_digit p = true -> p <> (q ++ "_" ++ r)%string.
Proof.
  intros H E. rewrite E, forallb_append in H. simpl in H.
  apply andb_true_iff in H. destruct H as [_ H]. discriminate H.
Qed.

Lemma stamp_suffix_inj (p q a b : string) :
  Str.forallb is_digit a = true -> Str.forallb is_digit b = true ->
  (p ++ "_" ++ a)%string = (q ++ "_" ++ b)%string -> a = b.
Proof.
  intros Ha Hb. revert q.
  induction p as [|x p IH]; intros [|y q] E; simpl in E.
  - now injection E.
  - injection E as _ E. exfalso. exact (digits_no_underscore _ _ _ Ha E).
  - injection E as _ E. exfalso.
    exact (digits_no_underscore _ _ _ Hb (eq_sym E)).
  - injection E as _ E. exact (IH _ E).
Qed.

Lemma stamped_inj (c c' : nat) (id : string) :
  stamped c id -> stamped c' id -> c = c'.
Proof.
  intros [p Hp] [q Hq]. apply of_nat_inj.
  apply (stamp_suffix_inj p q); try apply digits_of_nat.
  now rewrite <- Hp, <- Hq.
Qed.

Lemma fkey_stamped (a b : string) (n : nat) : stamped n (fkey a b n).
Proof.
  exists (a ++ "_" ++ b)%string. unfold fkey.
  now rewrite !append_assoc.
Qed.

(** ** The rule table *)

Lemma lookup_app (k : string) (dd1 dd2 : RuleTable) :
  lookup k (dd1 ++ dd2) =
  match lookup k dd1 with Some v => Some v | None => lookup k dd2 end.
Proof.
  induction dd1 as [|[k' v] dd1 IH]; simpl; [reflexivity|].
  destruct (String.eqb k k'); [reflexivity | exact IH].
Qed.

Lemma getitem_alts (dd : RuleTable) (k : string) :
  fst (dd_getitem dd k) = alts_of dd k.
Proof. unfold dd_getitem, alts_of. now destruct (lookup k dd). Qed.

(** Looking a name up never changes what is registered under any name. *)
Lemma getitem_keeps_alts (dd : RuleTable) (k k' : string) :
  alts_of (snd (dd_getitem dd k)) k' = alts_of dd k'.
Proof.
  unfold dd_getitem, alts_of.
  destruct (lookup k dd) eqn:E; simpl; [reflexivity|].
  rewrite lookup_app. destruct (lookup k' dd); [reflexivity|].
  simpl. now destruct (String.eqb k' k).
Qed.

Lemma getitem_keeps_lookup (dd : RuleTable) (k k' : string) v :
  lookup k' dd = Some v -> lookup k' (snd (dd_getitem dd k)) = Some v.
Proof.
  unfold dd_getitem. intros H.
  destruct (lookup k dd); simpl; [exact H|].
  now rewrite lookup_app, H.
Qed.

(** ** The graph is only appended to *)

Lemma frame_frame (a b : Digraph) (r : result Store) :
  frame a (frame b r) = frame (a ++ b) r.
Proof. destruct r as [[[out dd] n]| |]; simpl; now rewrite ?app_assoc. Qed.

Lemma render_items_frame rec (items : list string) :
  forall dot dot_key prev dd n,
    render_items rec dot dot_key prev items dd n =
    frame dot (render_items rec [] dot_key prev items dd n).
Proof.
  induction items as [|s items IH]; intros dot dot_key prev dd n; simpl.
  - now rewrite app_nil_r.
  - destruct (Str.mem (replace_get s) subgraphs).
    + destruct (dd_getitem dd (replace_get s)) as [alts dd1].
      destruct (render_alts rec [] _ alts dd1 (S n)) as [[[c dd2] n2]| |];
        try reflexivity.
      rewrite IH. rewrite (IH (_ :: _)). now rewrite frame_frame.
    + rewrite IH. rewrite (IH (_ :: _)). now rewrite frame_frame.
Qed.

Lemma render_frame (depth : nat) dot dot_key items dd n :
  render depth dot dot_key items dd n =
  frame dot (render depth [] dot_key items dd n).
Proof.
  destruct depth as [|d]; simpl; [reflexivity | apply render_items_frame].
Qed.

Lemma render_alts_frame (depth : nat) (alts : list (list string)) :
  forall c key dd n,
    render_alts (render depth) c key alts dd n =
    frame c (render_alts (render depth) [] key alts dd n).
Proof.
  induction alts as [|item alts IH]; intros c key dd n; simpl.
  - now rewrite app_nil_r.
  - rewrite render_frame.
    destruct (render depth [] key item dd n) as [[[out dd1] n1]| |];
      simpl; try reflexivity.
    rewrite IH, (IH out). now rewrite frame_frame.
Qed.

(** ** An induction principle for the successful runs of [render] *)

Section RenderInd.

(** [P key prev items dd n out dd' n']: the loop over [items], entered
    with [prev], turns the table [dd] and the counter [n] into [dd']
    and [n'] and appends [out].  [Q] is the same for the loop over the
    alternatives of a cluster. *)
Variable P : string -> string -> list string -> RuleTable -> nat ->
             Digraph -> RuleTable -> nat -> Prop.
Variable Q : string -> list (list string) -> RuleTable -> nat ->
             Digraph -> RuleTable -> nat -> Prop.

Hypothesis P_nil : forall key prev dd n, P key prev [] dd n [] dd n.
Hypothesis P_leaf : forall key prev s items dd n out dd' n',
  opens_cluster s = false ->
  P key (fkey s key (S n)) items dd (S n) out dd' n' ->
  P key prev (s :: items) dd n
    (node (fkey s key (S n)) (replace_get s)
          (Some (leaf_color s (replace_get s)))
       :: edge prev (fkey s key (S n)) :: out) dd' n'.
Hypothesis P_cluster : forall key prev s items dd n body dd2 n2 out dd' n',
  opens_cluster s = true ->
  Q (fkey (replace_get s) key (S n)) (alts_of dd (replace_get s))
    (snd (dd_getitem dd (replace_get s))) (S n) body dd2 n2 ->
  P key (fkey (replace_get s) key (S n)) items dd2 n2 out dd' n' ->
  P key prev (s :: items) dd n
    (subgraph (fkey (replace_get s) key (S n)) (replace_get s)
              (cluster_attr (replace_get s)) body
       :: edge prev (fkey (replace_get s) key (S n)) :: out) dd' n'.
Hypothesis Q_nil : forall key dd n, Q key [] dd n [] dd n.
Hypothesis Q_cons : forall key item alts dd n out1 dd1 n1 out2 dd2 n2,
  P key key item dd n out1 dd1 n1 ->
  Q key alts dd1 n1 out2 dd2 n2 ->
  Q key (item :: alts) dd n (out1 ++ out2) dd2 n2.

Lemma render_alts_ok_ind (depth : nat) :
  (forall key items dd n out dd' n',
     render depth [] key items dd n = Ok (out, dd', n') ->
     P key key items dd n out dd' n') ->
  forall alts key dd n out dd' n',
    render_alts (render depth) [] key alts dd n = Ok (out, dd', n') ->
    Q key alts dd n out dd' n'.
Proof.
  intros IHd. induction alts as [|item alts IH];
    intros key dd n out dd' n' H; simpl in H.
  - injection H as <- <- <-. apply Q_nil.
  - destruct (render depth [] key item dd n) as [[[out1 dd1] n1]| |] eqn:E;
      try discriminate H.
    rewrite render_alts_frame in H.
    destruct (render_alts (render depth) [] key alts dd1 n1)
      as [[[out2 dd2] n2]| |] eqn:E2; try discriminate H.
    simpl in H. injection H as <- <- <-.
    eapply Q_cons; [apply IHd, E | apply IH, E2].
Qed.

Lemma render_items_ok_ind (depth : nat) :
  (forall key items dd n out dd' n',
     render depth [] key items dd n = Ok (out, dd', n') ->
     P key key items dd n out dd' n') ->
  forall items key prev dd n out dd' n',
    render_items (render depth) [] key prev items dd n = Ok (out, dd', n') ->
    P key prev items dd n out dd' n'.
Proof.
  intros IHd. induction items as [|s items IH];
    intros key prev dd n out dd' n' H; simpl in H.
  - injection H as <- <- <-. apply P_nil.
  - destruct (Str.mem (replace_get s) subgraphs) eqn:B.
    + pose proof (getitem_alts dd (replace_get s)) as Ea.
      destruct (dd_getitem dd (replace_get s)) as [alts dd1] eqn:G.
      simpl in Ea. subst alts.
      destruct (render_alts (render depth) [] _ _ dd1 (S n))
        as [[[c dd2] n2]| |] eqn:E; try discriminate H.
      rewrite render_items_frame in H.
      destruct (render_items (render depth) [] key _ items dd2 n2)
        as [[[out2 dd3] n3]| |] eqn:E2; try discriminate H.
      simpl in H. injection H as <- <- <-.
      eapply P_cluster; [exact B | | apply IH, E2].
      rewrite G. simpl.
      eapply render_alts_ok_ind; [exact IHd | exact E].
    + rewrite render_items_frame in H.
      destruct (render_items (render depth) [] key _ items dd (S n))
        as [[[out2 dd3] n3]| |] eqn:E2; try discriminate H.
      simpl in H. injection H as <- <- <-.
      apply P_leaf; [exact B | apply IH, E2].
Qed.

Lemma render_ok_ind (depth : nat) :
  forall key items dd n out dd' n',
    render depth [] key items dd n = Ok (out, dd', n') ->
    P key key items dd n out dd' n'.
Proof.
  induction depth as [|d IHd]; intros key items dd n out dd' n' H.
  - discriminate H.
  - simpl in H. eapply render_items_ok_ind; [exact IHd | exact H].
Qed.

Lemma render_rule_ok_ind (depth : nat) :
  forall alts key dd n out dd' n',
    render_rule depth [] key alts dd n = Ok (out, dd', n') ->
    Q key alts dd n out dd' n'.
Proof. apply render_alts_ok_ind, render_ok_ind. Qed.

Lemma render_both_ok_ind (depth : nat) :
  (forall key items dd n out dd' n',
     render depth [] key items dd n = Ok (out, dd', n') ->
     P key key items dd n out dd' n') /\
  (forall alts key dd n out dd' n',
     render_rule depth [] key alts dd n = Ok (out, dd', n') ->
     Q key alts dd n out dd' n').
Proof. split; [apply render_ok_ind | apply render_rule_ok_ind]. Qed.

End RenderInd.

(** ** The alias table *)

Lemma assoc_In (k : string) (l : list (string * string)) v :
  assoc k l = Some v -> In (k, v) l.
Proof.
  induction l as [|[k' v'] l IH]; simpl; [discriminate|].
  destruct (String.eqb_spec k k') as [<-|_].
  - intros [= <-]. now left.
  - intros H. right. now apply IH.
Qed.

Lemma replace_entries : forallb replace_entry_ok replace = true.
Proof. reflexivity. Qed.

Lemma replace_get_absent (s : string) :
  in_replace s = false -> replace_get s = s.
Proof. unfold in_replace, replace_get. now destruct (assoc s replace). Qed.

Lemma replace_get_present (s : string) :
  in_replace s = true ->
  Str.mem (replace_get s) subgraphs = false /\
  (s = "even" \/ Str.mem s subgraphs = false).
Proof.
  unfold in_replace, replace_get.
  destruct (assoc s replace) as [v|] eqn:E; [intros _ | discriminate].
  apply assoc_In in E.
  pose proof (proj1 (forallb_forall _ _) replace_entries _ E) as H.
  unfold replace_entry_ok in H. simpl fst in H. simpl snd in H.
  apply andb_true_iff in H. destruct H as [H1 H2].
  apply negb_true_iff in H1. split; [exact H1|].
  apply orb_true_iff in H2. destruct H2 as [H2|H2].
  - left. now apply String.eqb_eq.
  - right. now apply negb_true_iff.
Qed.

(** A symbol that is not a boundary name never opens a cluster. *)
Lemma not_boundary_is_leaf (s : string) :
  Str.mem s subgraphs = false -> opens_cluster s = false.
Proof.
  intros H. unfold opens_cluster.
  destruct (in_replace s) eqn:E.
  - apply (replace_get_present s E).
  - now rewrite (replace_get_absent s E).
Qed.

(** The color of a leaf, told from the raw token alone. *)
Lemma leaf_color_raw (s : string) :
  leaf_color s (replace_get s) =
  if Str.isupper s || in_replace s then "red" else "blue".
Proof.
  unfold leaf_color. destruct (in_replace s) eqn:E.
  - now rewrite !orb_true_r.
  - now rewrite (replace_get_absent s E).
Qed.

(** One turn of the loop of [render] on a leaf. *)
Lemma render_items_leaf rec dot key prev s items dd n :
  opens_cluster s = false ->
  render_items rec dot key prev (s :: items) dd n =
  render_items rec
    (dot ++ [node (fkey s key (S n)) (replace_get s)
                  (Some (leaf_color s (replace_get s)));
             edge prev (fkey s key (S n))])
    key (fkey s key (S n)) items dd (S n).
Proof. unfold opens_cluster. intros B. simpl. now rewrite B. Qed.

Lemma render_leaf (depth : nat) dot key s dd n :
  opens_cluster s = false ->
  render (S depth) dot key [s] dd n =
  Ok (dot ++ [node (fkey s key (S n)) (replace_get s)
                   (Some (leaf_color s (replace_get s)));
              edge key (fkey s key (S n))], dd, S n).
Proof.
  intros B.
  change (render (S depth) dot key [s] dd n)
    with (render_items (render depth) dot key key [s] dd n).
  now rewrite render_items_leaf.
Qed.

(** The loop of [render] on a sequence of leaves. *)
Lemma render_items_leaves rec (items : list string) :
  forall dot key prev dd n,
    forallb (fun s => negb (opens_cluster s)) items = true ->
    render_items rec dot key prev items dd n =
    Ok (dot ++ spec_leaves key prev items n, dd, n + List.length items).
Proof.
  induction items as [|s items IH]; intros dot key prev dd n H.
  - simpl. now rewrite app_nil_r, Nat.add_0_r.
  - simpl in H. apply andb_true_iff in H. destruct H as [B H].
    apply negb_true_iff in B.
    rewrite (render_items_leaf rec dot key prev s items dd n B).
    rewrite (IH _ _ _ _ _ H), leaf_color_raw.
    unfold spec_leaf_color. simpl spec_leaves. simpl List.length.
    rewrite <- app_assoc. simpl app.
    now replace (S n + List.length items) with (n + S (List.length items))
      by lia.
Qed.

(** A leaf at any place of a loop of [render] that returns. *)
Lemma render_items_at rec (pre : list string) :
  forall dot key prev s post dd n dot' dd' n',
    opens_cluster s = false ->
    render_items rec dot key prev (pre ++ s :: post) dd n = Ok (dot', dd', n') ->
    exists before prev' m after,
      dot' = dot ++ before
               ++ node (fkey s key (S m)) (replace_get s)
                       (Some (spec_leaf_color s))
               :: edge prev' (fkey s key (S m)) :: after.
Proof.
  induction pre as [|x pre IH];
    intros dot key prev s post dd n dot' dd' n' B H.
  - change ([] ++ s :: post) with (s :: post) in H.
    rewrite (render_items_leaf rec _ _ _ _ _ _ _ B) in H.
    rewrite render_items_frame in H.
    destruct (render_items rec [] key _ post dd (S n))
      as [[[out d1] n1]| |]; try discriminate H.
    simpl in H. injection H as <- <- <-.
    exists [], prev, n, out. rewrite leaf_color_raw.
    unfold spec_leaf_color. now rewrite <- app_assoc.
  - simpl in H. destruct (Str.mem (replace_get x) subgraphs).
    + destruct (dd_getitem dd (replace_get x)) as [alts dd1].
      destruct (render_alts rec [] _ alts dd1 (S n)) as [[[c dd2] n2]| |];
        try discriminate H.
      destruct (IH _ _ _ _ _ _ _ _ _ _ B H) as (before & p & m & after & E).
      eexists (_ :: _ :: before), p, m, after.
      rewrite E, <- app_assoc. reflexivity.
    + destruct (IH _ _ _ _ _ _ _ _ _ _ B H) as (before & p & m & after & E).
      eexists (_ :: _ :: before), p, m, after.
      rewrite E, <- app_assoc. reflexivity.
Qed.

(** ** The output of [render] is a chain *)

Lemma render_chain_both (depth : nat) :
  (forall key items dd n out dd' n',
     render depth [] key items dd n = Ok (out, dd', n') ->
     (forall k, alts_of dd' k = alts_of dd k) /\
     (forall f, (forall k, f k = alts_of dd k) -> chain f key items out)) /\
  (forall alts key dd n out dd' n',
     render_rule depth [] key alts dd n = Ok (out, dd', n') ->
     (forall k, alts_of dd' k = alts_of dd k) /\
     (forall f, (forall k, f k = alts_of dd k) -> nested f key alts out)).
Proof.
  apply (render_both_ok_ind
    (fun key prev items dd n out dd' n' =>
       (forall k, alts_of dd' k = alts_of dd k) /\
       (forall f, (forall k, f k = alts_of dd k) -> chain f prev items out))
    (fun key alts dd n out dd' n' =>
       (forall k, alts_of dd' k = alts_of dd k) /\
       (forall f, (forall k, f k = alts_of dd k) -> nested f key alts out))).
  - intros key prev dd n. split; [reflexivity | intros; constructor].
  - intros key prev s items dd n out dd' n' B [Hk Hc].
    split; [exact Hk|]. intros f Hf. constructor; auto.
  - intros key prev s items dd n body dd2 n2 out dd' n' B [Hk1 Hn] [Hk2 Hc].
    assert (E : forall k, alts_of dd2 k = alts_of dd k)
      by (intros k; now rewrite Hk1, getitem_keeps_alts).
    split; [intros k; now rewrite Hk2, E|].
    intros f Hf. constructor; [exact B | | ].
    + rewrite Hf. apply Hn. intros k. now rewrite Hf, getitem_keeps_alts.
    + apply Hc. intros k. now rewrite Hf, E.
  - intros key dd n. split; [reflexivity | intros; constructor].
  - intros key item alts dd n out1 dd1 n1 out2 dd2 n2 [Hk1 Hc] [Hk2 Hn].
    split; [intros k; now rewrite Hk2, Hk1|].
    intros f Hf. constructor; [now apply Hc|].
    apply Hn. intros k. now rewrite Hf, Hk1.
Qed.

Lemma render_chain (depth : nat) key items dd n out dd' n' :
  render depth [] key items dd n = Ok (out, dd', n') ->
  chain (alts_of dd) key items out.
Proof.
  intros H. now apply (proj1 (render_chain_both depth) _ _ _ _ _ _ _ H).
Qed.

(** Only the symbol [a] itself has the boundary name [a] for label,
    unless [a] is [even], which no symbol has for label. *)
Lemma occurrences_raw (a : string) (items : list string) :
  Str.mem a subgraphs = true -> a <> "even" ->
  occurrences a items = count_occ string_dec items a.
Proof.
  intros Ha Hne. induction items as [|s items IH]; [reflexivity|].
  simpl. rewrite IH. f_equal.
  destruct (string_dec s a) as [->|Hs].
  - destruct (in_replace a) eqn:E.
    + destruct (replace_get_present a E) as [_ [H|H]];
        [contradiction | congruence].
    + now rewrite (replace_get_absent a E), String.eqb_refl.
  - destruct (String.eqb_spec (replace_get s) a) as [Er|_]; [|reflexivity].
    exfalso. destruct (in_replace s) eqn:E.
    + destruct (replace_get_present s E) as [H _]. congruence.
    + rewrite (replace_get_absent s E) in Er. contradiction.
Qed.

(** One cluster per occurrence of a boundary name in a chain. *)
Lemma chain_clusters f (a : string) root items out :
  Str.mem a subgraphs = true ->
  chain f root items out ->
  clusters_named a out = occurrences a items.
Proof.
  intros Ha H.
  induction H as [root | root s items id color rest B _ IH
                 | root s items id body rest B _ _ IH].
  - reflexivity.
  - simpl. rewrite IH.
    destruct (String.eqb_spec (replace_get s) a) as [E|_]; [|reflexivity].
    unfold opens_cluster in B. rewrite E, Ha in B. discriminate B.
  - simpl. now rewrite IH.
Qed.

(** ** Identifiers *)

Lemma synthesized_stamped lo hi id :
  synthesized lo hi id -> exists c, stamped c id /\ lo < c <= hi.
Proof.
  intros (text & ctx & c & -> & Hc). exists c.
  split; [apply fkey_stamped | exact Hc].
Qed.

Lemma synthesized_weaken lo hi lo' hi' id :
  lo' <= lo -> hi <= hi' -> synthesized lo hi id -> synthesized lo' hi' id.
Proof.
  intros H1 H2 (text & ctx & c & E & Hc). exists text, ctx, c.
  split; [exact E | lia].
Qed.

Lemma Forall_synthesized_weaken lo hi lo' hi' ids :
  lo' <= lo -> hi <= hi' ->
  Forall (synthesized lo hi) ids -> Forall (synthesized lo' hi') ids.
Proof.
  intros H1 H2. apply Forall_impl. intros id.
  now apply synthesized_weaken.
Qed.

(** Identifiers made in disjoint ranges of the counter are distinct. *)
Lemma NoDup_ranges lo mid hi (a b : list string) :
  NoDup a -> NoDup b ->
  Forall (synthesized lo mid) a -> Forall (synthesized mid hi) b ->
  NoDup (a ++ b).
Proof.
  intros Na Nb Fa Fb. apply NoDup_app; auto.
  intros id Ia Ib.
  rewrite Forall_forall in Fa, Fb.
  destruct (synthesized_stamped _ _ _ (Fa _ Ia)) as (c & Sc & Hc).
  destruct (synthesized_stamped _ _ _ (Fb _ Ib)) as (c' & Sc' & Hc').
  pose proof (stamped_inj _ _ _ Sc Sc'). lia.
Qed.

Lemma all_chain_ids_app (a b : Digraph) :
  all_chain_ids (a ++ b) = all_chain_ids a ++ all_chain_ids b.
Proof. apply flat_map_app. Qed.

Lemma render_ids_both (depth : nat) :
  (forall key items dd n out dd' n',
     render depth [] key items dd n = Ok (out, dd', n') ->
     n <= n' /\ NoDup (all_chain_ids out) /\
     Forall (synthesized n n') (all_chain_ids out)) /\
  (forall alts key dd n out dd' n',
     render_rule depth [] key alts dd n = Ok (out, dd', n') ->
     n <= n' /\ NoDup (all_chain_ids out) /\
     Forall (synthesized n n') (all_chain_ids out)).
Proof.
  apply (render_both_ok_ind
    (fun key prev items dd n out dd' n' =>
       n <= n' /\ NoDup (all_chain_ids out) /\
       Forall (synthesized n n') (all_chain_ids out))
    (fun key alts dd n out dd' n' =>
       n <= n' /\ NoDup (all_chain_ids out) /\
       Forall (synthesized n n') (all_chain_ids out))).
  - intros. repeat split; [lia | constructor | constructor].
  - intros key prev s items dd n out dd' n' B (Hle & Nd & Fa).
    assert (S0 : synthesized n (S n) (fkey s key (S n)))
      by (exists s, key, (S n); split; [reflexivity | lia]).
    split; [lia|]. split.
    + apply (NoDup_ranges n (S n) n' [_]); auto.
      constructor; [intros [] | constructor].
    + constructor.
      * eapply synthesized_weaken; [| |exact S0]; lia.
      * eapply Forall_synthesized_weaken; [| |exact Fa]; lia.
  - intros key prev s items dd n body dd2 n2 out dd' n' B
           (Hle1 & Nd1 & Fa1) (Hle2 & Nd2 & Fa2).
    assert (S0 : synthesized n (S n) (fkey (replace_get s) key (S n)))
      by (exists (replace_get s), key, (S n); split; [reflexivity | lia]).
    split; [lia|].
    change (all_chain_ids (subgraph ?i ?c ?a body :: edge ?x ?y :: out))
      with ((i :: all_chain_ids body) ++ all_chain_ids out).
    assert (Nb : NoDup (fkey (replace_get s) key (S n) :: all_chain_ids body)).
    { apply (NoDup_ranges n (S n) n2 [_]); auto.
      constructor; [intros [] | constructor]. }
    assert (Fb : Forall (synthesized n n2)
                   (fkey (replace_get s) key (S n) :: all_chain_ids body)).
    { constructor.
      - eapply synthesized_weaken; [| |exact S0]; lia.
      - eapply Forall_synthesized_weaken; [| |exact Fa1]; lia. }
    split.
    + apply (NoDup_ranges n n2 n'); auto.
    + apply Forall_app. split.
      * eapply Forall_synthesized_weaken; [| |exact Fb]; lia.
      * eapply Forall_synthesized_weaken; [| |exact Fa2]; lia.
  - intros. repeat split; [lia | constructor | constructor].
  - intros key item alts dd n out1 dd1 n1 out2 dd2 n2
           (Hle1 & Nd1 & Fa1) (Hle2 & Nd2 & Fa2).
    split; [lia|]. rewrite all_chain_ids_app. split.
    + apply (NoDup_ranges n n1 n2); auto.
    + apply Forall_app. split.
      * eapply Forall_synthesized_weaken; [| |exact Fa1]; lia.
      * eapply Forall_synthesized_weaken; [| |exact Fa2]; lia.
Qed.

(** The whole run: what [main_loop] adds to a graph whose identifiers
    were made before the counter reached [n]. *)
Lemma main_loop_ids (depth : nat) (pending : RuleTable) :
  forall idx size dot dd n dot' dd' n' lo,
    main_loop depth pending idx size dot dd n = Ok (dot', dd', n') ->
    lo <= n ->
    NoDup (all_chain_ids dot) ->
    Forall (synthesized lo n) (all_chain_ids dot) ->
    n <= n' /\ NoDup (all_chain_ids dot') /\
    Forall (synthesized lo n') (all_chain_ids dot').
Proof.
  induction pending as [|[key items] pending IH];
    intros idx size dot dd n dot' dd' n' lo H Hlo Nd Fa; simpl in H;
    destruct (negb (List.length dd =? size)); try discriminate H.
  - injection H as <- <- <-. auto.
  - destruct (Str.mem key subgraphs); [now apply (IH _ _ _ _ _ _ _ _ _ H)|].
    unfold render_rule in H. rewrite render_alts_frame in H.
    destruct (render_alts (render depth) [] _ items dd n)
      as [[[out dd1] n1]| |] eqn:E; try discriminate H.
    simpl in H.
    destruct (proj2 (render_ids_both depth) _ _ _ _ _ _ _ E)
      as (Hle & Nd1 & Fa1).
    assert (Ei : forall x, all_chain_ids ((dot ++ [node x key None]) ++ out)
                           = all_chain_ids dot ++ all_chain_ids out).
    { intros x. rewrite !all_chain_ids_app. simpl. now rewrite app_nil_r. }
    destruct (IH _ _ _ _ _ _ _ _ lo H) as (Hle2 & Nd2 & Fa2).
    + lia.
    + rewrite Ei. apply (NoDup_ranges lo n n1); auto.
    + rewrite Ei. apply Forall_app. split.
      * eapply Forall_synthesized_weaken; [| |exact Fa]; lia.
      * eapply Forall_synthesized_weaken; [| |exact Fa1]; lia.
    + repeat split; auto. lia.
Qed.

(** ** Two runs from different values of the counter *)

Lemma alike_observe n m r1 r2 :
  alike n m r1 r2 -> observe n r1 = observe m r2.
Proof.
  destruct r1 as [[[o1 d1] n1]| |], r2 as [[[o2 d2] n2]| |]; simpl;
    try tauto.
  intros (Es & Ed & k & -> & ->). rewrite Es, Ed.
  replace (n + k - n) with k by lia. replace (m + k - m) with k by lia.
  reflexivity.
Qed.

Lemma alike_frame n m k a b r1 r2 :
  map shape_of a = map shape_of b ->
  alike (n + k) (m + k) r1 r2 ->
  alike n m (frame a r1) (frame b r2).
Proof.
  destruct r1 as [[[o1 d1] n1]| |], r2 as [[[o2 d2] n2]| |]; simpl;
    try tauto.
  intros Eab (Es & Ed & j & -> & ->).
  rewrite !map_app, Eab, Es. repeat split; auto.
  exists (k + j). lia.
Qed.

Section Alike.

Variable depth : nat.
Hypothesis rec_alike : forall items key1 key2 dd n m,
  alike n m (render depth [] key1 items dd n)
            (render depth [] key2 items dd m).

Lemma render_alts_alike (alts : list (list string)) :
  forall key1 key2 dd n m,
    alike n m (render_alts (render depth) [] key1 alts dd n)
              (render_alts (render depth) [] key2 alts dd m).
Proof.
  induction alts as [|item alts IH]; intros key1 key2 dd n m; simpl.
  - repeat split; auto. exists 0. lia.
  - pose proof (rec_alike item key1 key2 dd n m) as A.
    destruct (render depth [] key1 item dd n) as [[[o1 d1] n1]| |],
             (render depth [] key2 item dd m) as [[[o2 d2] n2]| |];
      simpl in A; try tauto.
    destruct A as (Es & <- & k & -> & ->).
    rewrite (render_alts_frame depth alts o1), (render_alts_frame depth alts o2).
    apply (alike_frame n m k); auto.
Qed.

Lemma render_items_alike (items : list string) :
  forall key1 key2 prev1 prev2 dd n m,
    alike n m (render_items (render depth) [] key1 prev1 items dd n)
              (render_items (render depth) [] key2 prev2 items dd m).
Proof.
  induction items as [|s items IH];
    intros key1 key2 prev1 prev2 dd n m; simpl.
  - repeat split; auto. exists 0. lia.
  - destruct (Str.mem (replace_get s) subgraphs).
    + destruct (dd_getitem dd (replace_get s)) as [alts dd1].
      pose proof (render_alts_alike alts
                    (fkey (replace_get s) key1 (S n))
                    (fkey (replace_get s) key2 (S m)) dd1 (S n) (S m)) as A.
      destruct (render_alts (render depth) [] _ alts dd1 (S n))
        as [[[o1 d1] n1]| |],
               (render_alts (render depth) [] _ alts dd1 (S m))
        as [[[o2 d2] n2]| |]; simpl in A; try tauto.
      destruct A as (Es & <- & k & -> & ->).
      rewrite (render_items_frame _ items [_; _]),
              (render_items_frame _ items [_; _] key2).
      apply (alike_frame n m (S k)).
      * simpl. now rewrite Es.
      * replace (n + S k) with (S n + k) by lia.
        replace (m + S k) with (S m + k) by lia. apply IH.
    + rewrite (render_items_frame _ items [_; _]),
              (render_items_frame _ items [_; _] key2).
      apply (alike_frame n m 1); [reflexivity|].
      replace (n + 1) with (S n) by lia.
      replace (m + 1) with (S m) by lia. apply IH.
Qed.

End Alike.

Lemma render_alike (depth : nat) :
  forall items key1 key2 dd n m,
    alike n m (render depth [] key1 items dd n)
              (render depth [] key2 items dd m).
Proof.
  induction depth as [|d IH]; intros items key1 key2 dd n m; simpl.
  - exact I.
  - now apply render_items_alike.
Qed.

Lemma main_loop_alike (depth : nat) (pending : RuleTable) :
  forall idx size dot1 dot2 dd n m k,
    map shape_of dot1 = map shape_of dot2 ->
    alike n m (main_loop depth pending idx size dot1 dd (n + k))
              (main_loop depth pending idx size dot2 dd (m + k)).
Proof.
  induction pending as [|[key items] pending IH];
    intros idx size dot1 dot2 dd n m k Es; simpl;
    destruct (negb (List.length dd =? size)); try exact I.
  - repeat split; auto. now exists k.
  - destruct (Str.mem key subgraphs); [now apply IH|].
    unfold render_rule. rewrite !(render_alts_frame depth items (_ ++ _)).
    pose proof (render_alts_alike depth (render_alike depth) items
                  (key ++ "_" ++ Str.of_nat idx)%string
                  (key ++ "_" ++ Str.of_nat idx)%string dd (n + k) (m + k))
      as A.
    destruct (render_alts (render depth) [] _ items dd (n + k))
      as [[[o1 d1] n1]| |],
             (render_alts (render depth) [] _ items dd (m + k))
      as [[[o2 d2] n2]| |]; simpl in A; try tauto.
    destruct A as (Eo & <- & j & -> & ->). simpl.
    rewrite <- !Nat.add_assoc. apply IH.
    rewrite !map_app, Es, Eo. reflexivity.
Qed.

(** ** Termination under a ranking of the boundary names *)

Section Ranked.

Variable rank : string -> nat.

Lemma ranked_getitem (dd : RuleTable) (k : string) :
  ranked rank dd = true -> ranked rank (snd (dd_getitem dd k)) = true.
Proof.
  unfold dd_getitem. intros H.
  destruct (lookup k dd); simpl; [exact H|].
  unfold ranked. rewrite forallb_app. fold (ranked rank dd). rewrite H.
  simpl. now rewrite orb_true_r.
Qed.

Lemma ranked_alts (dd : RuleTable) (k : string) :
  ranked rank dd = true -> Str.mem k subgraphs = true ->
  forall alt, In alt (alts_of dd k) -> bounded rank (rank k) alt = true.
Proof.
  unfold alts_of. intros H B.
  induction dd as [|[k' v] dd IH]; simpl in *.
  - intros alt [].
  - apply andb_true_iff in H. destruct H as [Hv Hdd].
    destruct (String.eqb_spec k k') as [<-|Hne].
    + rewrite B in Hv. simpl in Hv. rewrite forallb_forall in Hv. exact Hv.
    + apply IH, Hdd.
Qed.

Lemma render_alts_total (d r : nat) :
  (forall items dd key n,
     bounded rank r items = true -> ranked rank dd = true ->
     succeeds rank (render d [] key items dd n)) ->
  forall alts key dd n,
    (forall alt, In alt alts -> bounded rank r alt = true) ->
    ranked rank dd = true ->
    succeeds rank (render_alts (render d) [] key alts dd n).
Proof.
  intros IHd. induction alts as [|item alts IH];
    intros key dd n Hb Hr; simpl.
  - now exists [], dd, n.
  - destruct (IHd item dd key n) as (o1 & d1 & n1 & E1 & R1);
      [apply Hb; now left | exact Hr |].
    rewrite E1, render_alts_frame.
    destruct (IH key d1 n1) as (o2 & d2 & n2 & E2 & R2);
      [intros alt Ha; apply Hb; now right | exact R1 |].
    rewrite E2. simpl. now exists (o1 ++ o2), d2, n2.
Qed.

Lemma render_items_total (d : nat) :
  (forall r items dd key n,
     r < d -> bounded rank r items = true -> ranked rank dd = true ->
     succeeds rank (render d [] key items dd n)) ->
  forall r items key prev dd n,
    r < S d -> bounded rank r items = true -> ranked rank dd = true ->
    succeeds rank (render_items (render d) [] key prev items dd n).
Proof.
  intros IHd r. induction items as [|s items IH];
    intros key prev dd n Hr Hb Hd; simpl.
  - now exists [], dd, n.
  - simpl in Hb. apply andb_true_iff in Hb. destruct Hb as [Hs Hb].
    unfold opens_cluster in Hs.
    destruct (Str.mem (replace_get s) subgraphs) eqn:B.
    + simpl in Hs. apply Nat.ltb_lt in Hs.
      pose proof (getitem_alts dd (replace_get s)) as Ea.
      pose proof (ranked_getitem dd (replace_get s) Hd) as R1.
      destruct (dd_getitem dd (replace_get s)) as [alts dd1].
      simpl in Ea, R1. subst alts.
      assert (Hlt : rank (replace_get s) < d) by lia.
      destruct (render_alts_total d (rank (replace_get s))
                  (fun items dd key n => IHd _ items dd key n Hlt)
                  (alts_of dd (replace_get s))
                  (fkey (replace_get s) key (S n)) dd1 (S n))
        as (o1 & d1 & n1 & E1 & R2);
        [now apply ranked_alts | exact R1 |].
      rewrite E1, render_items_frame.
      destruct (IH key (fkey (replace_get s) key (S n)) d1 n1 Hr Hb R2)
        as (o2 & d2 & n2 & E2 & R3).
      rewrite E2. simpl. eexists _, d2, n2. split; [reflexivity | exact R3].
    + rewrite render_items_frame.
      destruct (IH key (fkey s key (S n)) dd (S n) Hr Hb Hd)
        as (o2 & d2 & n2 & E2 & R3).
      rewrite E2. simpl. eexists _, d2, n2. split; [reflexivity | exact R3].
Qed.

Lemma render_total (depth : nat) :
  forall r items dd key n,
    r < depth -> bounded rank r items = true -> ranked rank dd = true ->
    succeeds rank (render depth [] key items dd n).
Proof.
  induction depth as [|d IHd]; intros r items dd key n Hr Hb Hd.
  - lia.
  - simpl. now apply (render_items_total d IHd r).
Qed.

End Ranked.

(** ** Failure *)

(** [render] itself never iterates over a dict: its only failure is the
    overflow of the stack. *)
Lemma render_alts_no_runtime_error (d : nat) :
  (forall dot key items dd n, render d dot key items dd n <> RuntimeError) ->
  forall alts c key dd n,
    render_alts (render d) c key alts dd n <> RuntimeError.
Proof.
  intros IHd. induction alts as [|item alts IH]; intros c key dd n; simpl.
  - discriminate.
  - pose proof (IHd c key item dd n) as H.
    destruct (render d c key item dd n) as [[[o1 d1] n1]| |];
      [apply IH | discriminate | contradiction].
Qed.

Lemma render_no_runtime_error (depth : nat) :
  forall dot key items dd n, render depth dot key items dd n <> RuntimeError.
Proof.
  induction depth as [|d IHd]; intros dot key items dd n; simpl.
  - discriminate.
  - generalize key at 2. revert dot dd n.
    induction items as [|s items IH]; intros dot dd n prev; simpl.
    + discriminate.
    + destruct (Str.mem (replace_get s) subgraphs); [|apply IH].
      destruct (dd_getitem dd (replace_get s)) as [alts dd1].
      pose proof (render_alts_no_runtime_error d IHd alts []
                    (fkey (replace_get s) key (S n)) dd1 (S n)) as H.
      destruct (render_alts (render d) [] _ alts dd1 (S n))
        as [[[o1 d1] n1]| |]; [apply IH | discriminate | contradiction].
Qed.

(** A boundary name that occurs in one of its own alternatives is never
    expanded to the end, whatever the depth allowed. *)
Section SelfReference.

Variables (a : string) (alts0 : list (list string)) (alt0 : list string).
Hypothesis a_boundary : opens_cluster a = true.
Hypothesis alt0_in : In alt0 alts0.
Hypothesis a_in_alt0 : In a alt0.

Lemma self_reference_both (depth : nat) :
  (forall key items dd n out dd' n',
     render depth [] key items dd n = Ok (out, dd', n') ->
     (forall k v, lookup k dd = Some v -> lookup k dd' = Some v) /\
     (lookup (replace_get a) dd = Some alts0 -> ~ In a items)) /\
  (forall alts key dd n out dd' n',
     render_rule depth [] key alts dd n = Ok (out, dd', n') ->
     (forall k v, lookup k dd = Some v -> lookup k dd' = Some v) /\
     (lookup (replace_get a) dd = Some alts0 ->
      forall alt, In alt alts -> ~ In a alt)).
Proof.
  apply (render_both_ok_ind
    (fun key prev items dd n out dd' n' =>
       (forall k v, lookup k dd = Some v -> lookup k dd' = Some v) /\
       (lookup (replace_get a) dd = Some alts0 -> ~ In a items))
    (fun key alts dd n out dd' n' =>
       (forall k v, lookup k dd = Some v -> lookup k dd' = Some v) /\
       (lookup (replace_get a) dd = Some alts0 ->
        forall alt, In alt alts -> ~ In a alt))).
  - intros. split; [auto | intros _ []].
  - intros key prev s items dd n out dd' n' B [Hk Hc].
    split; [exact Hk|]. intros L [->|Hi]; [congruence | now apply Hc].
  - intros key prev s items dd n body dd2 n2 out dd' n' B [Hk1 Hn] [Hk2 Hc].
    assert (K : forall k v, lookup k dd = Some v -> lookup k dd2 = Some v)
      by (intros k v L; now apply Hk1, getitem_keeps_lookup).
    split; [intros k v L; now apply Hk2, K|].
    intros L [->|Hi]; [|exact (Hc (K _ _ L) Hi)].
    refine (Hn _ alt0 _ a_in_alt0).
    + now apply getitem_keeps_lookup.
    + unfold alts_of. now rewrite L.
  - intros. split; [auto | intros _ _ []].
  - intros key item alts dd n out1 dd1 n1 out2 dd2 n2 [Hk1 Hc] [Hk2 Hn].
    split; [intros k v L; now apply Hk2, Hk1|].
    intros L alt [<-|Hi]; [now apply Hc | exact (Hn (Hk1 _ _ L) alt Hi)].
Qed.

Lemma self_reference_overflows (depth : nat) dot key items dd n :
  lookup (replace_get a) dd = Some alts0 -> In a items ->
  render depth dot key items dd n = RecursionError.
Proof.
  intros L Hi. rewrite render_frame.
  pose proof (render_no_runtime_error depth [] key items dd n) as Hr.
  destruct (render depth [] key items dd n) as [[[out dd'] n']| |] eqn:E;
    [exfalso | reflexivity | contradiction].
  exact (proj2 (proj1 (self_reference_both depth) _ _ _ _ _ _ _ E) L Hi).
Qed.

End SelfReference.

(** ** Matching a rule with an empty right-hand side *)

Lemma space_is_not_dot (c : ascii) :
  Chars.isspace c = true -> Ascii.eqb "." c = false.
Proof.
  destruct c as [[|] [|] [|] [|] [|] [|] [|] [|]]; vm_compute;
    congruence.
Qed.

Lemma space_is_not_colon (c : ascii) :
  Chars.isspace c = true -> Ascii.eqb ":" c = false.
Proof.
  destruct c as [[|] [|] [|] [|] [|] [|] [|] [|]]; vm_compute;
    congruence.
Qed.

(** A greedy repetition tries first what it finds after the longest
    run. *)
Lemma greedy_prefix (p : ascii -> bool) (k : Re.cont) (a : string) :
  forall prev b i marks r,
    Str.forallb p a = true ->
    Re.greedy p k (last_char a prev) b (i + String.length a) marks = Some r ->
    Re.greedy p k prev (a ++ b) i marks = Some r.
Proof.
  induction a as [|c a IH]; intros prev b i marks r Ha Hk; simpl in *.
  - now rewrite Nat.add_0_r in Hk.
  - apply andb_true_iff in Ha. destruct Ha as [Hc Ha]. rewrite Hc.
    rewrite (IH (Some c) b (S i) marks r Ha); [reflexivity|].
    now rewrite Nat.add_succ_comm.
Qed.

Lemma greedy_cons (p : ascii -> bool) (k : Re.cont) prev c s i marks :
  Re.greedy p k prev (String c s) i marks =
  if p c then
    match Re.greedy p k (Some c) s (S i) marks with
    | Some r => Some r
    | None => k prev (String c s) i marks
    end
  else k prev (String c s) i marks.
Proof. reflexivity. Qed.

Lemma greedy_stops (p : ascii -> bool) (k : Re.cont) prev b i marks :
  stops p b = true -> Re.greedy p k prev b i marks = k prev b i marks.
Proof.
  destruct b as [|d b]; simpl; [reflexivity|].
  intros Hb. apply negb_true_iff in Hb. now rewrite Hb.
Qed.

(** A greedy repetition over a run of the class that ends where the
    class stops: when the rest of the pattern matches after the whole
    run, that is the match. *)
Lemma greedy_run (p : ascii -> bool) (k : Re.cont) (a : string) :
  forall prev b i marks r,
    Str.forallb p a = true -> stops p b = true ->
    k (last_char a prev) b (i + String.length a) marks = Some r ->
    Re.greedy p k prev (a ++ b) i marks = Some r.
Proof.
  intros prev b i marks r Ha Hb Hk.
  apply greedy_prefix; [exact Ha|]. now rewrite greedy_stops.
Qed.

(** A greedy repetition fails when the rest of the pattern matches at
    no place of the text. *)
Lemma greedy_none (p : ascii -> bool) (k : Re.cont) (s : string) :
  forall prev i marks,
    (forall a b pv j mk, s = (a ++ b)%string -> k pv b j mk = None) ->
    Re.greedy p k prev s i marks = None.
Proof.
  induction s as [|c s IH]; intros prev i marks Hk; simpl.
  - now apply (Hk "" "").
  - rewrite IH.
    + rewrite (Hk "" (String c s)) by reflexivity. now destruct (p c).
    + intros a b pv j mk E. apply (Hk (String c a) b). simpl. now rewrite E.
Qed.

(** The lazy [.*?] before the closing dot runs over blanks. *)
Lemma lazy_to_dot (ws : string) :
  forall prev tail i marks,
    Str.forallb Chars.isspace ws = true ->
    Re.lazy Chars.anychar (Re.match_here [Re.Mark; Re.Lit "."%char])
            prev (ws ++ "." ++ tail) i marks
    = Some (marks ++ [i + String.length ws], S (i + String.length ws)).
Proof.
  induction ws as [|c ws IH]; intros prev tail i marks Hw; simpl in *.
  - now rewrite Nat.add_0_r.
  - apply andb_true_iff in Hw. destruct Hw as [Hc Hw].
    rewrite (space_is_not_dot c Hc). rewrite IH by exact Hw.
    now rewrite Nat.add_succ_comm.
Qed.

(** No rule starts in a text of blanks. *)
Lemma greedy_blank (rest : Re.pattern) (s : string) :
  forall prev i marks,
    Str.forallb Chars.isspace s = true ->
    Re.greedy Chars.isspace
      (Re.match_here (Re.Mark :: Re.Plus Chars.nonspace :: rest))
      prev s i marks = None.
Proof.
  induction s as [|c s IH]; intros prev i marks Hs; simpl in *.
  - reflexivity.
  - apply andb_true_iff in Hs. destruct Hs as [Hc Hs].
    rewrite Hc, IH by exact Hs. unfold Chars.nonspace. now rewrite Hc.
Qed.

Lemma scan_blank (s : string) :
  forall prev i,
    Str.forallb Chars.isspace s = true ->
    Re.scan rule_pattern prev s i 0 = [].
Proof.
  induction s as [|c s IH]; intros prev i Hs; [reflexivity|].
  assert (E : Re.match_here rule_pattern prev (String c s) i [] = None).
  { unfold rule_pattern.
    change (Re.match_here (Re.Bol :: ?pat) prev ?t i [])
      with (if Re.at_line_start prev
            then Re.match_here pat prev t i [] else None).
    destruct (Re.at_line_start prev); [|reflexivity].
    change (Re.match_here (Re.Star ?q :: ?pat))
      with (Re.greedy q (Re.match_here pat)).
    now apply greedy_blank. }
  simpl in Hs. apply andb_true_iff in Hs. destruct Hs as [_ Hs].
  change (Re.scan rule_pattern prev (String c s) i 0)
    with (match Re.match_here rule_pattern prev (String c s) i [] with
          | Some (marks, e) =>
              (i, marks, e) :: Re.scan rule_pattern (Some c) s (S i) (e - i - 1)
          | None => Re.scan rule_pattern (Some c) s (S i) 0
          end).
  rewrite E. now apply IH.
Qed.

(** The scan steps over the characters of the last match. *)
Lemma scan_skip (pat : Re.pattern) (a : string) :
  forall prev b i,
    Re.scan pat prev (a ++ b) i (String.length a)
    = Re.scan pat (last_char a prev) b (i + String.length a) 0.
Proof.
  induction a as [|c a IH]; intros prev b i; simpl.
  - now rewrite Nat.add_0_r.
  - rewrite IH. now rewrite Nat.add_succ_comm.
Qed.

Lemma substring_prefix (a b : string) :
  substring 0 (String.length a) (a ++ b) = a.
Proof.
  induction a as [|c a IH]; simpl.
  - now destruct b.
  - now rewrite IH.
Qed.

Lemma substring_skip (a s : string) (m : nat) :
  substring (String.length a) m (a ++ s) = substring 0 m s.
Proof. induction a as [|c a IH]; simpl; [reflexivity | exact IH]. Qed.

Lemma lstrip_blank (s : string) :
  Str.forallb Chars.isspace s = true -> Str.lstrip s = "".
Proof.
  induction s as [|c s IH]; simpl; [reflexivity|].
  intros H. apply andb_true_iff in H. destruct H as [Hc Hs].
  rewrite Hc. now apply IH.
Qed.

(** Where the part of the pattern after the left-hand side matches,
    the text holds two colons in a row. *)
Lemma from_marker_shape pv (b : string) j mk r :
  Re.match_here from_marker pv b j mk = Some r ->
  exists rest, b = String ":" (String ":" rest).
Proof.
  unfold from_marker. cbn [Re.match_here].
  destruct b as [|c [|d rest]]; try discriminate.
  - destruct (Ascii.eqb ":" c); discriminate.
  - destruct (Ascii.eqb_spec ":" c) as [<-|]; [|discriminate].
    destruct (Ascii.eqb_spec ":" d) as [<-|]; [|discriminate].
    intros _. now exists rest.
Qed.

Lemma after_left_shape (b : string) :
  forall pv j mk r,
    Re.greedy Chars.isspace (Re.match_here from_marker) pv b j mk = Some r ->
    exists w rest, b = (w ++ String ":" (String ":" rest))%string.
Proof.
  induction b as [|c b IH]; intros pv j mk r H.
  - discriminate H.
  - cbn [Re.greedy] in H.
    destruct (Chars.isspace c).
    + destruct (Re.greedy Chars.isspace (Re.match_here from_marker)
                  (Some c) b (S j) mk) as [r'|] eqn:E.
      * destruct (IH _ _ _ _ E) as (w & rest & ->).
        now exists (String c w), rest.
      * destruct (from_marker_shape _ _ _ _ _ H) as (rest & ->).
        now exists "", rest.
    + destruct (from_marker_shape _ _ _ _ _ H) as (rest & ->).
      now exists "", rest.
Qed.

Lemma no_two_colons (v x y : string) :
  Str.forallb not_colon v = true ->
  String ":" v <> (x ++ String ":" (String ":" y))%string.
Proof.
  intros Hv E. destruct x as [|c x]; simpl in E.
  - injection E as E. rewrite E in Hv. discriminate Hv.
  - injection E as _ E. rewrite E, forallb_append in Hv.
    apply andb_true_iff in Hv. destruct Hv as [_ Hv]. discriminate Hv.
Qed.

Lemma blanks_hold_no_colon (s : string) :
  Str.forallb Chars.isspace s = true -> Str.forallb not_colon s = true.
Proof.
  induction s as [|c s IH]; simpl; [reflexivity|].
  intros H. apply andb_true_iff in H. destruct H as [Hc Hs].
  unfold not_colon at 1. rewrite (space_is_not_colon c Hc). now apply IH.
Qed.

(** After the left-hand side, the greedy [\S+] may run into the marker
    when no blank precedes it, but then finds no marker after it and
    falls back to the end of the left-hand side. *)
Lemma nonspace_stops_at_marker pv (ws1 ws2 tail : string) j mk :
  Str.forallb Chars.isspace ws1 = true ->
  Str.forallb Chars.isspace ws2 = true ->
  Str.forallb Chars.isspace tail = true ->
  Re.greedy Chars.nonspace (Re.match_here after_left) pv
    (ws1 ++ "::=" ++ ws2 ++ "." ++ tail) j mk
  = Re.match_here after_left pv (ws1 ++ "::=" ++ ws2 ++ "." ++ tail)%string
      j mk.
Proof.
  intros H1 H2 Ht. destruct ws1 as [|d ws1].
  - change ("" ++ "::=" ++ ?t)%string
      with (String ":" (String ":" (String "=" t))).
    rewrite greedy_cons. change (Chars.nonspace ":") with true. cbv iota.
    rewrite greedy_none; [reflexivity|].
    intros a b pv' j' mk' E. unfold after_left.
    change (Re.match_here (Re.Mark :: Re.Star ?q :: ?pat) ?x ?t ?y ?m)
      with (Re.greedy q (Re.match_here pat) x t y (m ++ [y])).
    destruct (Re.greedy Chars.isspace (Re.match_here from_marker)
                pv' b j' (mk' ++ [j'])) as [r|] eqn:G; [|reflexivity].
    exfalso. destruct (after_left_shape _ _ _ _ _ G) as (w & rest & ->).
    rewrite <- (append_assoc a w) in E.
    apply (no_two_colons _ _ _) in E; [exact E|].
    change (Str.forallb not_colon (String "=" (ws2 ++ String "." tail)) = true).
    simpl. rewrite forallb_append. simpl.
    now rewrite (blanks_hold_no_colon ws2 H2), (blanks_hold_no_colon tail Ht).
  - apply greedy_stops. simpl in H1.
    apply andb_true_iff in H1. destruct H1 as [Hd _].
    simpl. unfold Chars.nonspace. now rewrite Hd.
Qed.

(** The match of [rule_pattern] at the start of a text that holds a
    left-hand side [String c l], blanks, the marker, blanks and the dot. *)
Lemma match_empty_rule (c : ascii) (l ws1 ws2 tail : string) :
  Chars.nonspace c = true -> Str.forallb Chars.nonspace l = true ->
  Str.forallb Chars.isspace ws1 = true ->
  Str.forallb Chars.isspace ws2 = true ->
  Str.forallb Chars.isspace tail = true ->
  let p1 := 1 + String.length l in
  let p3 := S (S (S (p1 + String.length ws1))) in
  let p4 := p3 + String.length ws2 in
  Re.match_here rule_pattern None
    (String c l ++ ws1 ++ "::=" ++ ws2 ++ "." ++ tail)%string 0 []
  = Some ([0; p1; p3; p4], S p4).
Proof.
  intros Hc Hl H1 H2 Ht p1 p3 p4.
  change rule_pattern
    with (Re.Bol :: Re.Star Chars.isspace :: Re.Mark
            :: Re.Plus Chars.nonspace :: after_left).
  change (Re.match_here (Re.Bol :: Re.Star ?q :: ?pat) None ?t 0 [])
    with (Re.greedy q (Re.match_here pat) None t 0 []).
  assert (Hs : Chars.isspace c = false)
    by (unfold Chars.nonspace in Hc; now apply negb_true_iff).
  change (String c l ++ ?t)%string with (String c (l ++ t)%string).
  cbn [Re.greedy]. rewrite Hs.
  change (Re.match_here (Re.Mark :: Re.Plus ?q :: ?pat) None
            (String c ?t) 0 [])
    with (if q c then Re.greedy q (Re.match_here pat) (Some c) t 1 [0]
          else None).
  rewrite Hc.
  apply greedy_prefix; [exact Hl|].
  rewrite nonspace_stops_at_marker by assumption.
  unfold after_left.
  change (Re.match_here (Re.Mark :: Re.Star ?q :: ?pat) ?pv ?t ?j ?mk)
    with (Re.greedy q (Re.match_here pat) pv t j (mk ++ [j])).
  apply greedy_run; [exact H1 | reflexivity |].
  change ("::=" ++ ?t)%string
    with (String ":" (String ":" (String "=" t))).
  unfold from_marker. cbn [Re.match_here]. rewrite !Ascii.eqb_refl.
  change (Re.match_here (Re.Mark :: Re.LazyStar ?q :: ?pat) ?pv ?t ?j ?mk)
    with (Re.lazy q (Re.match_here pat) pv t j (mk ++ [j])).
  rewrite lazy_to_dot by exact H2.
  reflexivity.
Qed.

Lemma findall_empty_rule (c : ascii) (l ws1 ws2 tail : string) :
  Chars.nonspace c = true -> Str.forallb Chars.nonspace l = true ->
  Str.forallb Chars.isspace ws1 = true ->
  Str.forallb Chars.isspace ws2 = true ->
  Str.forallb Chars.isspace tail = true ->
  Re.findall rule_pattern
    (String c l ++ ws1 ++ "::=" ++ ws2 ++ "." ++ tail)
  = [[String c l; ws2]].
Proof.
  intros Hc Hl H1 H2 Ht. unfold Re.findall.
  set (text := (String c l ++ ws1 ++ "::=" ++ ws2 ++ "." ++ tail)%string).
  assert (Et : text = String c (l ++ ws1 ++ "::=" ++ ws2 ++ "." ++ tail))
    by reflexivity.
  assert (Es : Re.scan rule_pattern None text 0 0
               = [(0, [0; 1 + String.length l;
                       S (S (S (1 + String.length l + String.length ws1)));
                       S (S (S (1 + String.length l + String.length ws1)))
                       + String.length ws2],
                   S (S (S (S (1 + String.length l + String.length ws1)))
                      + String.length ws2))]).
  { rewrite Et at 1.
    change (Re.scan rule_pattern None (String c ?t) 0 0)
      with (match Re.match_here rule_pattern None (String c t) 0 [] with
            | Some (marks, e) =>
                (0, marks, e) :: Re.scan rule_pattern (Some c) t 1 (e - 0 - 1)
            | None => Re.scan rule_pattern (Some c) t 1 0
            end).
    rewrite <- Et. unfold text.
    rewrite (match_empty_rule c l ws1 ws2 tail Hc Hl H1 H2 Ht).
    cbv zeta. f_equal.
    replace (l ++ ws1 ++ "::=" ++ ws2 ++ "." ++ tail)%string
      with ((l ++ ws1 ++ "::=" ++ ws2 ++ ".") ++ tail)%string
      by (now rewrite !append_assoc).
    replace (S (S (S (S (1 + String.length l + String.length ws1)))
                + String.length ws2) - 0 - 1)
      with (String.length (l ++ ws1 ++ "::=" ++ ws2 ++ "."))
      by (rewrite !length_append; simpl; lia).
    rewrite scan_skip. now apply scan_blank. }
  rewrite Es. simpl map. unfold Re.groups. simpl snd. simpl fst.
  rewrite substring_prefix.
  replace (String.length l + String.length ws1 + String.length ws2
           - (String.length l + String.length ws1))
    with (String.length ws2) by lia.
  replace (S (S (S (String.length l + String.length ws1))))
    with (String.length (l ++ ws1 ++ "::="))
    by (rewrite !length_append; simpl; lia).
  replace (l ++ ws1 ++ String ":" (String ":" (String "="
             (ws2 ++ String "." tail))))%string
    with ((l ++ ws1 ++ "::=") ++ ws2 ++ String "." tail)%string
    by (now rewrite !append_assoc).
  now rewrite substring_skip, substring_prefix.
Qed.

(** [parse] on a rule with nothing but blanks before the dot. *)
Lemma parse_empty_rule (l ws1 ws2 tail : string) :
  l <> "" -> Str.forallb Chars.nonspace l = true ->
  Str.forallb Chars.isspace ws1 = true ->
  Str.forallb Chars.isspace ws2 = true ->
  Str.forallb Chars.isspace tail = true ->
  parse (l ++ ws1 ++ "::=" ++ ws2 ++ "." ++ tail)
  = [(Re.sub_empty no_paren l, [""])].
Proof.
  intros Hl Hn H1 H2 Ht.
  destruct l as [|c l]; [contradiction|].
  simpl in Hn. apply andb_true_iff in Hn. destruct Hn as [Hc Hn].
  unfold parse. rewrite findall_empty_rule by assumption.
  simpl map. unfold parse_rule, Str.strip.
  rewrite (lstrip_blank ws2 H2). reflexivity.
Qed.

(** Nothing is stripped from a text without an opening parenthesis. *)
Lemma scan_no_paren (s : string) :
  forall prev i,
    Str.forallb not_lparen s = true -> Re.scan no_paren prev s i 0 = [].
Proof.
  induction s as [|c s IH]; intros prev i Hs; [reflexivity|].
  simpl in Hs. apply andb_true_iff in Hs. destruct Hs as [Hc Hs].
  unfold not_lparen in Hc. apply negb_true_iff in Hc.
  simpl. rewrite Hc. now apply IH.
Qed.

Lemma sub_empty_no_paren (s : string) :
  Str.forallb not_lparen s = true -> Re.sub_empty no_paren s = s.
Proof.
  intros Hs. unfold Re.sub_empty. rewrite scan_no_paren by exact Hs.
  now destruct s.
Qed.

(** * The claims *)

(** ** C1 *)

(** C1, as stated, fails: in one process the second run finds
    [dbg_count] where the first left it, so the same table gives
    different identifiers. *)
Lemma second_run_renames_nodes :
  run_twice 1 [("a", [["b"]])] =
    Some ([node "a_0" "a" None; node "b_a_0_1" "b" (Some "blue");
           edge "a_0" "b_a_0_1"],
          [node "a_0" "a" None; node "b_a_0_2" "b" (Some "blue");
           edge "a_0" "b_a_0_2"])
  /\ [node "a_0" "a" None; node "b_a_0_1" "b" (Some "blue");
      edge "a_0" "b_a_0_1"]
     <> [node "a_0" "a" None; node "b_a_0_2" "b" (Some "blue");
         edge "a_0" "b_a_0_2"].
Proof. split; [reflexivity | discriminate]. Qed.

(** C1, amended: two runs of the expander on the same table, whatever
    the values of [dbg_count] they start from, end alike (both return,
    or both fail the same way) and, when they return, declare the same
    kinds of elements with the same labels, colors and cluster
    contents in the same order, leave the same table and advance the
    counter by the same amount.  Only the identifiers may differ. *)
Theorem runs_agree_up_to_identifiers (depth : nat) (dd : RuleTable)
    (n m : nat) :
  observe n (expand depth dd n) = observe m (expand depth dd m).
Proof.
  apply alike_observe. unfold expand.
  pose proof (main_loop_alike depth dd 0 (List.length dd) [] [] dd n m 0
                eq_refl) as H.
  now rewrite !Nat.add_0_r in H.
Qed.

(** ** C2 *)

(** C2, as stated, fails: with the boundary name [edge] defined by
    [edge ::= x edge y .], expanding the sequence [edge] returns at no
    depth of the stack. *)
Lemma self_reference_never_returns :
  ~ exists depth st,
      render depth [] "S_0" ["edge"] [("edge", [["x"; "edge"; "y"]])] 0
      = Ok st.
Proof.
  intros (depth & st & H).
  rewrite (self_reference_overflows "edge" [["x"; "edge"; "y"]]
             ["x"; "edge"; "y"]) in H; try discriminate H;
    try reflexivity; simpl; auto.
Qed.

(** C2, amended: when the boundary names can be ranked so that every
    alternative of a boundary name mentions only boundary names of lower
    rank, expanding a sequence returns once the depth allowed exceeds
    the ranks in the sequence; the result is a chain with, for every
    boundary name [a], exactly one cluster per occurrence of [a] in the
    sequence, each holding one nested chain per alternative of [a]. *)
Theorem ranked_expansion_terminates (rank : string -> nat) (dd : RuleTable)
    (depth r : nat) (dot : Digraph) (key : string) (items : list string)
    (n : nat) :
  ranked rank dd = true -> bounded rank r items = true -> r < depth ->
  exists out dd' n',
    render depth dot key items dd n = Ok (dot ++ out, dd', n') /\
    chain (alts_of dd) key items out /\
    (forall a, Str.mem a subgraphs = true ->
               clusters_named a out = occurrences a items) /\
    (forall a, Str.mem a subgraphs = true -> a <> "even" ->
               clusters_named a out = count_occ string_dec items a).
Proof.
  intros Hd Hb Hr.
  destruct (render_total rank depth r items dd key n Hr Hb Hd)
    as (out & dd' & n' & E & _).
  exists out, dd', n'. rewrite render_frame, E.
  pose proof (render_chain _ _ _ _ _ _ _ _ E) as C.
  repeat split; auto.
  - intros a Ha. now apply (chain_clusters (alts_of dd) a key).
  - intros a Ha Hne. rewrite <- occurrences_raw by assumption.
    now apply (chain_clusters (alts_of dd) a key).
Qed.

(** The sequence [edge x edge] in the sample grammar, with [edge] ranked
    above [direction]. *)
Lemma ranked_expansion_terminates_witness :
  ranked sample_rank sample_table = true /\
  bounded sample_rank 2 ["edge"; "x"; "edge"] = true /\
  2 < 3 /\
  exists out dd' n',
    render 3 [] "S_0" ["edge"; "x"; "edge"] sample_table 0
      = Ok ([] ++ out, dd', n') /\
    chain (alts_of sample_table) "S_0" ["edge"; "x"; "edge"] out /\
    (forall a, Str.mem a subgraphs = true ->
               clusters_named a out = occurrences a ["edge"; "x"; "edge"]) /\
    (forall a, Str.mem a subgraphs = true -> a <> "even" ->
               clusters_named a out
               = count_occ string_dec ["edge"; "x"; "edge"] a).
Proof.
  split; [reflexivity|]. split; [reflexivity|]. split; [lia|].
  apply (ranked_expansion_terminates sample_rank sample_table 3 2 []
           "S_0" ["edge"; "x"; "edge"] 0); [reflexivity | reflexivity | lia].
Defined.

(** ** C3 *)

(** C3, as stated, fails: the symbol [foo], which has no rule and is no
    boundary name, gets a node and the run returns. *)
Lemma unknown_symbol_gets_a_node :
  expand 1 [("a", [["foo"]])] 0 =
  Ok ([node "a_0" "a" None; node "foo_a_0_1" "foo" (Some "blue");
       edge "a_0" "foo_a_0_1"],
      [("a", [["foo"]])], 1).
Proof. reflexivity. Qed.

(** C3, amended: a symbol with no entry in the table that is not a
    boundary name is no failure: the loop of [render] declares a node
    for it, labelled with its display label and colored as any other
    leaf, links it to the previous element and goes on with the rest of
    the sequence; alone in a sequence, the call returns. *)
Theorem unknown_symbol_is_a_leaf (sym : string) (dd : RuleTable) :
  lookup sym dd = None -> Str.mem sym subgraphs = false ->
  (forall rec dot key prev items n,
     render_items rec dot key prev (sym :: items) dd n =
     render_items rec
       (dot ++ [node (fkey sym key (S n)) (replace_get sym)
                     (Some (if Str.isupper sym || in_replace sym
                            then "red" else "blue"));
                edge prev (fkey sym key (S n))])
       key (fkey sym key (S n)) items dd (S n)) /\
  (forall depth dot key n,
     render (S depth) dot key [sym] dd n =
     Ok (dot ++ [node (fkey sym key (S n)) (replace_get sym)
                      (Some (if Str.isupper sym || in_replace sym
                             then "red" else "blue"));
                 edge key (fkey sym key (S n))], dd, S n)).
Proof.
  intros _ B. apply not_boundary_is_leaf in B.
  split; intros; rewrite <- leaf_color_raw.
  - now apply render_items_leaf.
  - now apply render_leaf.
Qed.

(** The symbol [foo] in the table that holds [a ::= foo .] alone. *)
Lemma unknown_symbol_is_a_leaf_witness :
  lookup "foo" [("a", [["foo"]])] = None /\
  Str.mem "foo" subgraphs = false /\
  render 1 [] "a_0" ["foo"] [("a", [["foo"]])] 0 =
  Ok ([] ++ [node (fkey "foo" "a_0" 1) (replace_get "foo")
                  (Some (if Str.isupper "foo" || in_replace "foo"
                         then "red" else "blue"));
             edge "a_0" (fkey "foo" "a_0" 1)], [("a", [["foo"]])], 1).
Proof.
  split; [reflexivity|]. split; [reflexivity|].
  apply (unknown_symbol_is_a_leaf "foo" [("a", [["foo"]])]); reflexivity.
Defined.

(** ** C4 *)

(** C4, as stated, fails: the pair is not [("A", ["B"; "C"])]. *)
Lemma spaced_annotation_not_dropped :
  parse ("A(x) ::= B (annotation) C ." ++ nl) <> [("A", ["B"; "C"])].
Proof. vm_compute. discriminate. Qed.

(** C4, amended: for the input ["A(x) ::= B (annotation) C .\n" ] the
    extractor yields exactly the pair [("A", ["B"; ""; "C"])]: the
    annotations are stripped from both sides, and the annotation that
    stands alone between blanks leaves an empty token in its place.
    When it is attached to its symbol, no empty token arises. *)
Theorem spaced_annotation_leaves_empty_token :
  parse ("A(x) ::= B (annotation) C ." ++ nl) = [("A", ["B"; ""; "C"])] /\
  parse ("A(x) ::= B(annotation) C ." ++ nl) = [("A", ["B"; "C"])].
Proof. split; reflexivity. Qed.

(** ** C5 *)

(** C5, as stated, fails on [even]: the top-level loop skips the key,
    the chain expansion does not open a cluster for the symbol. *)
Lemma even_is_checked_two_ways :
  top_level_skips "even" = true /\ opens_cluster "even" = false /\
  expand 2 [("s", [["even"]]); ("even", [["EVEN"]])] 0 =
  Ok ([node "s_0" "s" None;
       node "even_s_0_1" "UNTIL EVEN WITH|EVEN WITH" (Some "red");
       edge "s_0" "even_s_0_1"],
      [("s", [["even"]]); ("even", [["EVEN"]])], 1).
Proof. repeat split. Qed.

(** C5, amended: the top-level loop tests the raw key and the chain
    expansion tests the display label; the two tests agree on every
    name other than [even]. *)
Theorem boundary_tests_agree_except_even (name : string) :
  name <> "even" -> top_level_skips name = opens_cluster name.
Proof.
  intros Hne. unfold top_level_skips, opens_cluster.
  destruct (in_replace name) eqn:E.
  - destruct (replace_get_present name E) as [H1 [H2|H2]];
      [contradiction | now rewrite H1, H2].
  - now rewrite (replace_get_absent name E).
Qed.

(** The boundary name [edge]. *)
Lemma boundary_tests_agree_except_even_witness :
  "edge" <> "even" /\ top_level_skips "edge" = opens_cluster "edge".
Proof.
  split; [discriminate|].
  apply (boundary_tests_agree_except_even "edge"). discriminate.
Defined.

(** ** C6 *)

(** C6 fails on the code: for the grammar [a ::= edge .], where the
    boundary name [edge] has no rule, the lookup [dd[value]] of [render]
    adds the key [edge] to the table, and the loop of [main], which is
    iterating over that table, then fails with [RuntimeError]. *)
Theorem lookup_of_missing_boundary_mutates_table :
  build_table (parse ("a ::= edge ." ++ nl)) = [("a", [["edge"]])] /\
  render 1 [] "a_0" ["edge"] [("a", [["edge"]])] 0 =
  Ok ([subgraph "edge_a_0_1" "edge"
         [("shape", "box"); ("color", "green"); ("label", "edge")] [];
       edge "a_0" "edge_a_0_1"],
      [("a", [["edge"]]); ("edge", [])], 1) /\
  main 10 ("a ::= edge ." ++ nl) 0 = RuntimeError.
Proof. repeat split. Qed.

(** ** C7 *)

(** C7: a call of [render] on a sequence of symbols none of which opens
    a cluster returns, and has appended, per symbol and in order, a node
    with the synthesized identifier, labelled with the display label and
    colored from the raw token, then the edge to it from the previous
    element; the table is unchanged and the counter has advanced by the
    length of the sequence.  That color is red exactly when the raw
    token is uppercase or a key of the alias table, and blue otherwise.
    A call on [GT] alone appends a red node labelled [>] and its edge,
    a call on [statement] alone a blue node labelled [statement] and its
    edge.  In any call that returns, whatever else the sequence holds,
    clusters included, a symbol that opens no cluster has got such a
    node, followed by the edge to it: [GT] a red node labelled [>],
    [statement] a blue one labelled [statement]. *)
Theorem leaf_rendering :
  (forall depth dot key items dd n,
     forallb (fun s => negb (opens_cluster s)) items = true ->
     render (S depth) dot key items dd n =
     Ok (dot ++ spec_leaves key key items n, dd, n + List.length items)) /\
  (forall s, spec_leaf_color s = "red" <->
             Str.isupper s = true \/ in_replace s = true) /\
  (forall s, spec_leaf_color s = "blue" <->
             Str.isupper s = false /\ in_replace s = false) /\
  (forall depth dot key dd n,
     render (S depth) dot key ["GT"] dd n =
     Ok (dot ++ [node (fkey "GT" key (S n)) ">" (Some "red");
                 edge key (fkey "GT" key (S n))], dd, S n)) /\
  (forall depth dot key dd n,
     render (S depth) dot key ["statement"] dd n =
     Ok (dot ++ [node (fkey "statement" key (S n)) "statement" (Some "blue");
                 edge key (fkey "statement" key (S n))], dd, S n)) /\
  (forall depth dot key pre s post dd n dot' dd' n',
     opens_cluster s = false ->
     render depth dot key (pre ++ s :: post) dd n = Ok (dot', dd', n') ->
     exists before prev m after,
       dot' = dot ++ before
                ++ node (fkey s key (S m)) (replace_get s)
                        (Some (if Str.isupper s || in_replace s
                               then "red" else "blue"))
                :: edge prev (fkey s key (S m)) :: after) /\
  (forall depth dot key pre post dd n dot' dd' n',
     render depth dot key (pre ++ "GT" :: post) dd n = Ok (dot', dd', n') ->
     exists before prev m after,
       dot' = dot ++ before
                ++ node (fkey "GT" key (S m)) ">" (Some "red")
                :: edge prev (fkey "GT" key (S m)) :: after) /\
  (forall depth dot key pre post dd n dot' dd' n',
     render depth dot key (pre ++ "statement" :: post) dd n
       = Ok (dot', dd', n') ->
     exists before prev m after,
       dot' = dot ++ before
                ++ node (fkey "statement" key (S m)) "statement" (Some "blue")
                :: edge prev (fkey "statement" key (S m)) :: after).
Proof.
  assert (At : forall depth dot key pre s post dd n dot' dd' n',
             opens_cluster s = false ->
             render depth dot key (pre ++ s :: post) dd n = Ok (dot', dd', n') ->
             exists before prev m after,
               dot' = dot ++ before
                        ++ node (fkey s key (S m)) (replace_get s)
                                (Some (spec_leaf_color s))
                        :: edge prev (fkey s key (S m)) :: after).
  { intros [|d] dot key pre s post dd n dot' dd' n' B H; [discriminate H|].
    exact (render_items_at (render d) pre _ _ _ _ _ _ _ _ _ _ B H). }
  repeat apply conj.
  - intros depth dot key items dd n H.
    exact (render_items_leaves (render depth) items dot key key dd n H).
  - intros s. unfold spec_leaf_color. rewrite <- orb_true_iff.
    destruct (Str.isupper s || in_replace s); split; intro H;
      try reflexivity; discriminate H.
  - intros s. unfold spec_leaf_color. rewrite <- orb_false_iff.
    destruct (Str.isupper s || in_replace s); split; intro H;
      try reflexivity; discriminate H.
  - intros depth dot key dd n.
    exact (render_leaf depth dot key "GT" dd n eq_refl).
  - intros depth dot key dd n.
    exact (render_leaf depth dot key "statement" dd n eq_refl).
  - intros depth dot key pre s post dd n dot' dd' n' B H.
    exact (At depth dot key pre s post dd n dot' dd' n' B H).
  - intros depth dot key pre post dd n dot' dd' n' H.
    exact (At depth dot key pre "GT" post dd n dot' dd' n' eq_refl H).
  - intros depth dot key pre post dd n dot' dd' n' H.
    exact (At depth dot key pre "statement" post dd n dot' dd' n' eq_refl H).
Qed.

(** The sequence [PLUS statement GT] under the root [S_0], and the
    symbol [x] between the two clusters of the sample grammar. *)
Lemma leaf_rendering_witness :
  (forallb (fun s => negb (opens_cluster s)) ["PLUS"; "statement"; "GT"] = true /\
   render 1 [] "S_0" ["PLUS"; "statement"; "GT"] [] 0 =
   Ok ([node "PLUS_S_0_1" "+" (Some "red");
        edge "S_0" "PLUS_S_0_1";
        node "statement_S_0_2" "statement" (Some "blue");
        edge "PLUS_S_0_1" "statement_S_0_2";
        node "GT_S_0_3" ">" (Some "red");
        edge "statement_S_0_2" "GT_S_0_3"], [], 3)) /\
  (opens_cluster "x" = false /\
   render 3 [] "S_0" (["edge"] ++ "x" :: ["edge"]) sample_table 0
     = Ok sample_render /\
   exists before prev m after,
     fst (fst sample_render) =
     [] ++ before
        ++ node (fkey "x" "S_0" (S m)) (replace_get "x")
                (Some (if Str.isupper "x" || in_replace "x"
                       then "red" else "blue"))
        :: edge prev (fkey "x" "S_0" (S m)) :: after).
Proof.
  split.
  - split; [reflexivity|].
    exact (proj1 leaf_rendering 0 [] "S_0" ["PLUS"; "statement"; "GT"] [] 0
             eq_refl).
  - split; [reflexivity|]. split; [reflexivity|].
    apply (proj1 (proj2 (proj2 (proj2 (proj2 (proj2 leaf_rendering)))))
             3 [] "S_0" ["edge"] "x" ["edge"] sample_table 0
             (fst (fst sample_render)) (snd (fst sample_render))
             (snd sample_render)); reflexivity.
Defined.

(** ** C8 *)

(** C8: what a call of [render] that returns has appended to the graph
    is a chain for its sequence: per symbol a node or a cluster and then
    one edge to it from the previous element, the first from the given
    root; a cluster is linked by its own identifier, which is also where
    the next edge starts and where each nested chain, one per
    alternative, starts. *)
Theorem edges_form_linear_chain (depth : nat) (dot : Digraph) (key : string)
    (items : list string) (dd : RuleTable) (n : nat)
    (dot' : Digraph) (dd' : RuleTable) (n' : nat) :
  render depth dot key items dd n = Ok (dot', dd', n') ->
  exists out, dot' = dot ++ out /\ chain (alts_of dd) key items out.
Proof.
  rewrite render_frame.
  destruct (render depth [] key items dd n) as [[[out d1] n1]| |] eqn:E;
    try discriminate.
  intros [= <- <- <-]. exists out. split; [reflexivity|].
  exact (render_chain _ _ _ _ _ _ _ _ E).
Qed.

(** The sequence [edge x edge] in the sample grammar. *)
Lemma edges_form_linear_chain_witness :
  render 3 [] "S_0" ["edge"; "x"; "edge"] sample_table 0 = Ok sample_render /\
  exists out, fst (fst sample_render) = [] ++ out /\
              chain (alts_of sample_table) "S_0" ["edge"; "x"; "edge"] out.
Proof.
  split; [reflexivity|].
  apply (edges_form_linear_chain 3 [] "S_0" ["edge"; "x"; "edge"]
           sample_table 0 (fst (fst sample_render)) (snd (fst sample_render))
           (snd sample_render)).
  reflexivity.
Defined.

(** ** C9 *)

(** C9: in a run of the expander that returns, the identifiers that
    chain expansion synthesized, for nodes and clusters at any depth,
    are pairwise distinct, and each is made of a text, the identifier of
    its context and a value that the counter took during the run. *)
Theorem chain_identifiers_distinct (depth : nat) (dd : RuleTable) (n : nat)
    (dot' : Digraph) (dd' : RuleTable) (n' : nat) :
  expand depth dd n = Ok (dot', dd', n') ->
  NoDup (all_chain_ids dot') /\
  Forall (synthesized n n') (all_chain_ids dot').
Proof.
  unfold expand. intros H.
  apply (main_loop_ids depth dd 0 (List.length dd) [] dd n dot' dd' n' n H);
    [lia | constructor | constructor].
Qed.

(** The sample grammar, expanded from a counter at 0. *)
Lemma chain_identifiers_distinct_witness :
  expand 3 sample_table 0 = Ok sample_expand /\
  NoDup (all_chain_ids (fst (fst sample_expand))) /\
  Forall (synthesized 0 (snd sample_expand))
         (all_chain_ids (fst (fst sample_expand))).
Proof.
  split; [reflexivity|].
  apply (chain_identifiers_distinct 3 sample_table 0
           (fst (fst sample_expand)) (snd (fst sample_expand))
           (snd sample_expand)).
  reflexivity.
Defined.

(** ** C10 *)

(** C10: a rule with only blanks between the marker and the dot, as
    [A ::= .] or [A::=.], yields its left-hand side, without its
    annotations, with the one-element list holding the empty token;
    [render] turns the empty token into a red leaf labelled
    [\<empty string\>] and linked to the previous element; so [main]
    declares, for such a rule alone, the root, that leaf and the edge
    from the root to it. *)
Theorem empty_rule_keeps_empty_token (l ws1 ws2 tail : string) :
  l <> "" -> Str.forallb Chars.nonspace l = true ->
  Str.forallb Chars.isspace ws1 = true ->
  Str.forallb Chars.isspace ws2 = true ->
  Str.forallb Chars.isspace tail = true ->
  parse (l ++ ws1 ++ "::=" ++ ws2 ++ "." ++ tail)
    = [(Re.sub_empty no_paren l, [""])] /\
  (Str.forallb not_lparen l = true -> Re.sub_empty no_paren l = l) /\
  (forall depth dot key dd n,
     render (S depth) dot key [""] dd n =
     Ok (dot ++ [node (fkey "" key (S n)) "\<empty string\>" (Some "red");
                 edge key (fkey "" key (S n))], dd, S n)) /\
  (Str.mem (Re.sub_empty no_paren l) subgraphs = false ->
   forall depth n,
     main (S depth) (l ++ ws1 ++ "::=" ++ ws2 ++ "." ++ tail) n =
     Ok ([node (Re.sub_empty no_paren l ++ "_0") (Re.sub_empty no_paren l)
               None;
          node (fkey "" (Re.sub_empty no_paren l ++ "_0") (S n))
               "\<empty string\>" (Some "red");
          edge (Re.sub_empty no_paren l ++ "_0")
               (fkey "" (Re.sub_empty no_paren l ++ "_0") (S n))],
         [(Re.sub_empty no_paren l, [[""]])], S n)).
Proof.
  intros Hl Hn H1 H2 Ht.
  pose proof (parse_empty_rule l ws1 ws2 tail Hl Hn H1 H2 Ht) as E.
  assert (R : forall depth dot key dd n,
     render (S depth) dot key [""] dd n =
     Ok (dot ++ [node (fkey "" key (S n)) "\<empty string\>" (Some "red");
                 edge key (fkey "" key (S n))], dd, S n))
    by (intros; now rewrite render_leaf).
  split; [exact E|]. split; [apply sub_empty_no_paren|]. split; [exact R|].
  intros B depth n. unfold main. rewrite E.
  unfold build_table, expand. simpl. rewrite B. reflexivity.
Qed.

(** The rule [A ::= .] followed by a newline. *)
Lemma empty_rule_keeps_empty_token_witness :
  "A" <> "" /\ Str.forallb Chars.nonspace "A" = true /\
  Str.forallb Chars.isspace " " = true /\
  Str.forallb Chars.isspace " " = true /\
  Str.forallb Chars.isspace nl = true /\
  parse ("A" ++ " " ++ "::=" ++ " " ++ "." ++ nl) = [("A", [""])] /\
  main 1 ("A" ++ " " ++ "::=" ++ " " ++ "." ++ nl) 0 =
  Ok ([node "A_0" "A" None;
       node "_A_0_1" "\<empty string\>" (Some "red");
       edge "A_0" "_A_0_1"],
      [("A", [[""]])], 1).
Proof.
  do 5 (split; [first [discriminate | reflexivity]|]).
  destruct (empty_rule_keeps_empty_token "A" " " " " nl)
    as (H1 & _ & _ & H4); try first [discriminate | reflexivity].
  split; [exact H1 | exact (H4 eq_refl 0 0)].
Defined.

(** * Further properties *)

(** ** Building the table *)

Lemma alts_of_dd_append (dd : RuleTable) (l : string) (r : list string)
    (k : string) :
  alts_of (dd_append dd l r) k =
  if String.eqb k l then alts_of dd k ++ [r] else alts_of dd k.
Proof.
  unfold alts_of. induction dd as [|[k' v] dd IH]; simpl.
  - now destruct (String.eqb k l).
  - destruct (String.eqb_spec l k') as [<-|Hl]; simpl.
    + now destruct (String.eqb k l).
    + destruct (String.eqb_spec k k') as [<-|Hk]; [|exact IH].
      destruct (String.eqb_spec k l) as [E|_]; [now subst | reflexivity].
Qed.

Lemma keys_dd_append (dd : RuleTable) (l : string) (r : list string) :
  keys (dd_append dd l r) =
  if Str.mem l (keys dd) then keys dd else keys dd ++ [l].
Proof.
  unfold keys. induction dd as [|[k' v] dd IH]; simpl; [reflexivity|].
  unfold Str.mem; fold (Str.mem l (map fst dd)).
  destruct (String.eqb l k'); simpl; [reflexivity|].
  rewrite IH. now destruct (Str.mem l (map fst dd)).
Qed.

Lemma mem_true_iff (x : string) (xs : list string) :
  Str.mem x xs = true <-> In x xs.
Proof.
  induction xs as [|y ys IH]; simpl.
  - split; [discriminate | tauto].
  - unfold Str.mem; fold (Str.mem x ys).
    rewrite orb_true_iff, IH, String.eqb_eq. split; intros [H|H]; auto.
Qed.

Lemma mem_false_iff (x : string) (xs : list string) :
  Str.mem x xs = false <-> ~ In x xs.
Proof.
  rewrite <- mem_true_iff. destruct (Str.mem x xs); split; congruence.
Qed.

Lemma fold_dd_append (rules : list (string * list string)) :
  forall dd,
    NoDup (keys dd) ->
    NoDup (keys (fold_left (fun dd r => dd_append dd (fst r) (snd r))
                           rules dd)) /\
    (forall k,
       alts_of (fold_left (fun dd r => dd_append dd (fst r) (snd r)) rules dd)
               k
       = alts_of dd k ++ rights_of k rules) /\
    (forall k,
       In k (keys (fold_left (fun dd r => dd_append dd (fst r) (snd r))
                             rules dd))
       <-> In k (keys dd) \/ In k (map fst rules)).
Proof.
  induction rules as [|[l r] rules IH]; intros dd Hd; simpl.
  - split; [exact Hd|]. split.
    + intros k. unfold rights_of. simpl. now rewrite app_nil_r.
    + intros k. tauto.
  - destruct (IH (dd_append dd l r)) as (N & A & K).
    + rewrite keys_dd_append. destruct (Str.mem l (keys dd)) eqn:E; auto.
      apply NoDup_app; auto.
      * constructor; [intros [] | constructor].
      * intros a Ha [<-|[]]. now apply mem_false_iff in E.
    + split; [exact N|]. split.
      * intros k. rewrite A, alts_of_dd_append. unfold rights_of. simpl.
        rewrite (String.eqb_sym l k).
        destruct (String.eqb k l); simpl; [now rewrite <- app_assoc | auto].
      * intros k. rewrite K, keys_dd_append.
        destruct (Str.mem l (keys dd)) eqn:E.
        -- apply mem_true_iff in E. split; [tauto|].
           intros [H|[<-|H]]; auto.
        -- rewrite in_app_iff. simpl. tauto.
Qed.

(** X1: the table that [main] builds groups the rules by left-hand side:
    its keys are distinct, they are the left-hand sides of the rules, and
    under each key stand the right-hand sides of its rules in the order
    of the text. *)
Theorem build_table_groups_rules (rules : list (string * list string)) :
  NoDup (keys (build_table rules)) /\
  (forall k, In k (keys (build_table rules)) <-> In k (map fst rules)) /\
  (forall k, alts_of (build_table rules) k = rights_of k rules).
Proof.
  destruct (fold_dd_append rules [] (NoDup_nil _)) as (N & A & K).
  split; [exact N|]. split.
  - intros k. unfold build_table. rewrite K. simpl. tauto.
  - intros k. unfold build_table. now rewrite A.
Qed.

(** ** What a run does to the table *)

Lemma getitem_extends (dd : RuleTable) (k : string) :
  exists extra, snd (dd_getitem dd k) = dd ++ extra.
Proof.
  unfold dd_getitem. destruct (lookup k dd); simpl.
  - exists []. now rewrite app_nil_r.
  - now exists [(k, [])].
Qed.

(** [render] only ever adds entries at the end of the table. *)
Lemma render_extends_both (depth : nat) :
  (forall key items dd n out dd' n',
     render depth [] key items dd n = Ok (out, dd', n') ->
     exists extra, dd' = dd ++ extra) /\
  (forall alts key dd n out dd' n',
     render_rule depth [] key alts dd n = Ok (out, dd', n') ->
     exists extra, dd' = dd ++ extra).
Proof.
  apply (render_both_ok_ind
    (fun key prev items dd n out dd' n' => exists extra, dd' = dd ++ extra)
    (fun key alts dd n out dd' n' => exists extra, dd' = dd ++ extra)).
  - intros. exists []. now rewrite app_nil_r.
  - auto.
  - intros key prev s items dd n body dd2 n2 out dd' n' _ [e1 E1] [e2 E2].
    destruct (getitem_extends dd (replace_get s)) as [e0 E0].
    exists (e0 ++ e1 ++ e2). rewrite E2, E1, E0. now rewrite !app_assoc.
  - intros. exists []. now rewrite app_nil_r.
  - intros key item alts dd n out1 dd1 n1 out2 dd2 n2 [e1 E1] [e2 E2].
    exists (e1 ++ e2). rewrite E2, E1. now rewrite app_assoc.
Qed.

Lemma main_loop_keeps_table (depth : nat) (pending : RuleTable) :
  forall idx size dot dd n dot' dd' n',
    main_loop depth pending idx size dot dd n = Ok (dot', dd', n') ->
    dd' = dd /\ List.length dd = size.
Proof.
  induction pending as [|[key items] pending IH];
    intros idx size dot dd n dot' dd' n' H; simpl in H;
    destruct (List.length dd =? size) eqn:L; try discriminate H;
    simpl in H; apply Nat.eqb_eq in L.
  - injection H as <- <- <-. auto.
  - destruct (Str.mem key subgraphs); [now apply (IH _ _ _ _ _ _ _ _ H)|].
    unfold render_rule in H. rewrite render_alts_frame in H.
    destruct (render_alts (render depth) [] _ items dd n)
      as [[[out dd1] n1]| |] eqn:E; try discriminate H.
    simpl in H. destruct (IH _ _ _ _ _ _ _ _ H) as [-> L1].
    destruct (proj2 (render_extends_both depth) _ _ _ _ _ _ _ E)
      as [extra ->].
    rewrite length_app in L1.
    destruct extra; [now rewrite app_nil_r | simpl in L1; lia].
Qed.

(** X2: a run of the expander that returns has left the table as it
    found it; a run in which [render] added a key does not return. *)
Theorem returning_run_keeps_table (depth : nat) (dd : RuleTable) (n : nat)
    (dot' : Digraph) (dd' : RuleTable) (n' : nat) :
  expand depth dd n = Ok (dot', dd', n') -> dd' = dd.
Proof.
  unfold expand. intros H. now apply (main_loop_keeps_table _ _ _ _ _ _ _ _ _ _ H).
Qed.

(** The sample grammar. *)
Lemma returning_run_keeps_table_witness :
  expand 3 sample_table 0 = Ok sample_expand /\
  snd (fst sample_expand) = sample_table.
Proof.
  split; [reflexivity|].
  apply (returning_run_keeps_table 3 sample_table 0
           (fst (fst sample_expand)) (snd (fst sample_expand))
           (snd sample_expand)).
  reflexivity.
Defined.

(** A symbol that opens a cluster is itself the boundary name, and is
    not [even]. *)
Lemma cluster_label (s : string) :
  opens_cluster s = true -> replace_get s = s /\ s <> "even".
Proof.
  intros B. unfold opens_cluster in B.
  destruct (in_replace s) eqn:E.
  - destruct (replace_get_present s E) as [H _]. congruence.
  - split; [now apply replace_get_absent|]. intros ->. discriminate E.
Qed.

Lemma defined_boundary (dd : RuleTable) (s : string) :
  boundaries_defined dd = true -> opens_cluster s = true ->
  snd (dd_getitem dd (replace_get s)) = dd.
Proof.
  intros D B. destruct (cluster_label s B) as [E Hne].
  unfold opens_cluster in B. rewrite E in *.
  unfold boundaries_defined in D. rewrite forallb_forall in D.
  apply mem_true_iff in B. specialize (D s B).
  apply orb_true_iff in D. destruct D as [D|D].
  - apply String.eqb_eq in D. contradiction.
  - unfold dd_getitem. now destruct (lookup s dd).
Qed.

Lemma render_defined_both (depth : nat) :
  (forall key items dd n out dd' n',
     render depth [] key items dd n = Ok (out, dd', n') ->
     boundaries_defined dd = true -> dd' = dd) /\
  (forall alts key dd n out dd' n',
     render_rule depth [] key alts dd n = Ok (out, dd', n') ->
     boundaries_defined dd = true -> dd' = dd).
Proof.
  apply (render_both_ok_ind
    (fun key prev items dd n out dd' n' =>
       boundaries_defined dd = true -> dd' = dd)
    (fun key alts dd n out dd' n' =>
       boundaries_defined dd = true -> dd' = dd)).
  - auto.
  - auto.
  - intros key prev s items dd n body dd2 n2 out dd' n' B H1 H2 D.
    rewrite (defined_boundary dd s D B) in H1.
    pose proof (H1 D) as E. subst dd2. now apply H2.
  - auto.
  - intros key item alts dd n out1 dd1 n1 out2 dd2 n2 H1 H2 D.
    pose proof (H1 D) as ->. now apply H2.
Qed.

Lemma main_loop_defined (depth : nat) (pending : RuleTable) :
  forall idx size dot dd n,
    boundaries_defined dd = true -> List.length dd = size ->
    main_loop depth pending idx size dot dd n <> RuntimeError.
Proof.
  induction pending as [|[key items] pending IH];
    intros idx size dot dd n D L; simpl;
    rewrite (proj2 (Nat.eqb_eq _ _) L); simpl.
  - discriminate.
  - destruct (Str.mem key subgraphs); [now apply IH|].
    unfold render_rule. rewrite render_alts_frame.
    pose proof (render_alts_no_runtime_error depth
                  (render_no_runtime_error depth) items []
                  (key ++ "_" ++ Str.of_nat idx)%string dd n) as Hr.
    destruct (render_alts (render depth) [] _ items dd n)
      as [[[out dd1] n1]| |] eqn:E; simpl;
      [| discriminate | contradiction].
    rewrite (proj2 (render_defined_both depth) _ _ _ _ _ _ _ E D).
    now apply IH.
Qed.

(** X3: when every boundary name that can label a symbol has an entry in
    the table, a call of [render] that returns leaves the table as it
    was, and the expander never fails with [RuntimeError]: its only
    failure is then the overflow of the stack. *)
Theorem defined_boundaries_keep_table (dd : RuleTable) :
  boundaries_defined dd = true ->
  (forall depth dot key items n dot' dd' n',
     render depth dot key items dd n = Ok (dot', dd', n') -> dd' = dd) /\
  (forall depth n, expand depth dd n <> RuntimeError).
Proof.
  intros D. split.
  - intros depth dot key items n dot' dd' n'. rewrite render_frame.
    destruct (render depth [] key items dd n) as [[[out d1] n1]| |] eqn:E;
      try discriminate.
    intros [= _ <- _].
    exact (proj1 (render_defined_both depth) _ _ _ _ _ _ _ E D).
  - intros depth n. now apply main_loop_defined.
Qed.

(** A table with a rule for every boundary name. *)
Lemma defined_boundaries_keep_table_witness :
  boundaries_defined full_table = true /\
  expand 2 full_table 0 = Ok full_expand /\
  expand 2 full_table 0 <> RuntimeError.
Proof.
  split; [reflexivity|]. split; [reflexivity|].
  exact (proj2 (defined_boundaries_keep_table full_table eq_refl) 2 0).
Defined.

(** ** The counter counts the symbols expanded *)

Lemma render_counts_both (depth : nat) :
  (forall key items dd n out dd' n',
     render depth [] key items dd n = Ok (out, dd', n') ->
     n' = n + List.length (all_chain_ids out)) /\
  (forall alts key dd n out dd' n',
     render_rule depth [] key alts dd n = Ok (out, dd', n') ->
     n' = n + List.length (all_chain_ids out)).
Proof.
  apply (render_both_ok_ind
    (fun key prev items dd n out dd' n' =>
       n' = n + List.length (all_chain_ids out))
    (fun key alts dd n out dd' n' =>
       n' = n + List.length (all_chain_ids out))).
  - intros. simpl. lia.
  - intros key prev s items dd n out dd' n' _ ->. simpl. lia.
  - intros key prev s items dd n body dd2 n2 out dd' n' _ -> ->.
    change (all_chain_ids (subgraph ?i ?c ?a body :: edge ?x ?y :: out))
      with ((i :: all_chain_ids body) ++ all_chain_ids out).
    rewrite length_app. simpl. lia.
  - intros. simpl. lia.
  - intros key item alts dd n out1 dd1 n1 out2 dd2 n2 -> ->.
    rewrite all_chain_ids_app, length_app. lia.
Qed.

(** X4: a call of [render] that returns has advanced [dbg_count] by
    exactly the number of nodes and clusters it declared, at any depth:
    one step per symbol expanded. *)
Theorem counter_counts_expanded_symbols (depth : nat) (dot : Digraph)
    (key : string) (items : list string) (dd : RuleTable) (n : nat)
    (dot' : Digraph) (dd' : RuleTable) (n' : nat) :
  render depth dot key items dd n = Ok (dot', dd', n') ->
  n' + List.length (all_chain_ids dot)
  = n + List.length (all_chain_ids dot').
Proof.
  rewrite render_frame.
  destruct (render depth [] key items dd n) as [[[out d1] n1]| |] eqn:E;
    try discriminate.
  intros [= <- <- <-].
  rewrite (proj1 (render_counts_both depth) _ _ _ _ _ _ _ E).
  rewrite all_chain_ids_app, length_app. lia.
Qed.

(** The sequence [edge x edge] in the sample grammar. *)
Lemma counter_counts_expanded_symbols_witness :
  render 3 [] "S_0" ["edge"; "x"; "edge"] sample_table 0 = Ok sample_render /\
  snd sample_render + List.length (all_chain_ids [])
  = 0 + List.length (all_chain_ids (fst (fst sample_render))).
Proof.
  split; [reflexivity|].
  apply (counter_counts_expanded_symbols 3 [] "S_0" ["edge"; "x"; "edge"]
           sample_table 0 (fst (fst sample_render)) (snd (fst sample_render))
           (snd sample_render)).
  reflexivity.
Defined.

(** ** A deeper stack changes no result *)

Section Deeper.

Variables rec rec' : Digraph -> string -> list string -> RuleTable -> nat
                     -> result Store.
Hypothesis rec_le : forall dot key items dd n st,
  rec dot key items dd n = Ok st -> rec' dot key items dd n = Ok st.

Lemma render_alts_deeper (alts : list (list string)) :
  forall c key dd n st,
    render_alts rec c key alts dd n = Ok st ->
    render_alts rec' c key alts dd n = Ok st.
Proof.
  induction alts as [|item alts IH]; intros c key dd n st H; simpl in *.
  - exact H.
  - destruct (rec c key item dd n) as [[[c1 d1] n1]| |] eqn:E;
      try discriminate H.
    rewrite (rec_le _ _ _ _ _ _ E). now apply IH.
Qed.

Lemma render_items_deeper (items : list string) :
  forall dot key prev dd n st,
    render_items rec dot key prev items dd n = Ok st ->
    render_items rec' dot key prev items dd n = Ok st.
Proof.
  induction items as [|s items IH]; intros dot key prev dd n st H;
    simpl in *.
  - exact H.
  - destruct (Str.mem (replace_get s) subgraphs); [|now apply IH].
    destruct (dd_getitem dd (replace_get s)) as [alts dd1].
    destruct (render_alts rec [] _ alts dd1 (S n))
      as [[[c d2] n2]| |] eqn:E; try discriminate H.
    rewrite (render_alts_deeper _ _ _ _ _ _ E). now apply IH.
Qed.

End Deeper.

Lemma render_succ_depth (depth : nat) :
  forall dot key items dd n st,
    render depth dot key items dd n = Ok st ->
    render (S depth) dot key items dd n = Ok st.
Proof.
  induction depth as [|d IH]; intros dot key items dd n st H.
  - discriminate H.
  - simpl in H. change (render (S (S d)) dot key items dd n)
      with (render_items (render (S d)) dot key key items dd n).
    now apply (render_items_deeper (render d) (render (S d)) IH).
Qed.

Lemma render_deeper (depth extra : nat) dot key items dd n st :
  render depth dot key items dd n = Ok st ->
  render (extra + depth) dot key items dd n = Ok st.
Proof.
  intros H. induction extra as [|e IH]; [exact H|].
  now apply render_succ_depth.
Qed.

Lemma main_loop_deeper (depth extra : nat) (pending : RuleTable) :
  forall idx size dot dd n st,
    main_loop depth pending idx size dot dd n = Ok st ->
    main_loop (extra + depth) pending idx size dot dd n = Ok st.
Proof.
  induction pending as [|[key items] pending IH];
    intros idx size dot dd n st H; simpl in *;
    destruct (negb (List.length dd =? size)); try discriminate H.
  - exact H.
  - destruct (Str.mem key subgraphs); [now apply IH|].
    unfold render_rule in *.
    destruct (render_alts (render depth) _ _ items dd n)
      as [[[d1 t1] n1]| |] eqn:E; try discriminate H.
    rewrite (render_alts_deeper (render depth) (render (extra + depth))
               (render_deeper depth extra) _ _ _ _ _ _ E).
    now apply IH.
Qed.

(** X5: what a call of [render], or a run of the expander, returns does
    not depend on the depth that the stack allows: allowing more gives
    the same graph, table and counter. *)
Theorem deeper_stack_same_result (depth extra : nat) :
  (forall dot key items dd n st,
     render depth dot key items dd n = Ok st ->
     render (extra + depth) dot key items dd n = Ok st) /\
  (forall dd n st,
     expand depth dd n = Ok st -> expand (extra + depth) dd n = Ok st).
Proof.
  split.
  - intros. now apply render_deeper.
  - intros dd n st. unfold expand. apply main_loop_deeper.
Qed.

(** The sample grammar, expanded with 3 levels and with 10. *)
Lemma deeper_stack_same_result_witness :
  expand 3 sample_table 0 = Ok sample_expand /\
  expand (7 + 3) sample_table 0 = Ok sample_expand.
Proof.
  split; [reflexivity|].
  apply (proj2 (deeper_stack_same_result 3 7) sample_table 0 sample_expand).
  reflexivity.
Defined.

(** ** Roots *)

Lemma roots_app (a b : Digraph) : roots (a ++ b) = roots a ++ roots b.
Proof.
  induction a as [|d a IH]; simpl; [reflexivity|].
  destruct d as [name label [color|] | |]; simpl; now rewrite ?IH.
Qed.

(** [render] declares no root. *)
Lemma render_no_roots_both (depth : nat) :
  (forall key items dd n out dd' n',
     render depth [] key items dd n = Ok (out, dd', n') -> roots out = []) /\
  (forall alts key dd n out dd' n',
     render_rule depth [] key alts dd n = Ok (out, dd', n') ->
     roots out = []).
Proof.
  apply (render_both_ok_ind
    (fun key prev items dd n out dd' n' => roots out = [])
    (fun key alts dd n out dd' n' => roots out = [])); auto.
  intros key item alts dd n out1 dd1 n1 out2 dd2 n2 H1 H2.
  now rewrite roots_app, H1, H2.
Qed.

Lemma main_loop_roots (depth : nat) (pending : RuleTable) :
  forall idx size dot dd n dot' dd' n',
    main_loop depth pending idx size dot dd n = Ok (dot', dd', n') ->
    roots dot' = roots dot ++ enumerate_roots idx pending.
Proof.
  induction pending as [|[key items] pending IH];
    intros idx size dot dd n dot' dd' n' H; simpl in H;
    destruct (negb (List.length dd =? size)); try discriminate H.
  - injection H as <- <- <-. simpl. now rewrite app_nil_r.
  - simpl. destruct (Str.mem key subgraphs); [now apply (IH _ _ _ _ _ _ _ _ H)|].
    unfold render_rule in H. rewrite render_alts_frame in H.
    destruct (render_alts (render depth) [] _ items dd n)
      as [[[out dd1] n1]| |] eqn:E; try discriminate H.
    simpl in H. apply IH in H. rewrite H, !roots_app.
    rewrite (proj2 (render_no_roots_both depth) _ _ _ _ _ _ _ E).
    simpl. now rewrite app_nil_r, <- app_assoc.
Qed.

Lemma enumerate_roots_stamped (dd : RuleTable) :
  forall idx,
    Forall (fun r => exists c, stamped c (fst r) /\ idx <= c)
           (enumerate_roots idx dd).
Proof.
  induction dd as [|[key items] dd IH]; intros idx; simpl; [constructor|].
  assert (T : Forall (fun r => exists c, stamped c (fst r) /\ idx <= c)
                (enumerate_roots (S idx) dd)).
  { eapply Forall_impl; [|apply IH]. intros r (c & Sc & Hc).
    exists c. split; [exact Sc | lia]. }
  destruct (Str.mem key subgraphs); [exact T|].
  constructor; [|exact T]. exists idx. split; [|lia]. now exists key.
Qed.

Lemma enumerate_roots_distinct (dd : RuleTable) :
  forall idx, NoDup (map fst (enumerate_roots idx dd)).
Proof.
  induction dd as [|[key items] dd IH]; intros idx; simpl; [constructor|].
  destruct (Str.mem key subgraphs); [apply IH|].
  simpl. constructor; [|apply IH].
  intros Hi. apply in_map_iff in Hi. destruct Hi as (r & Er & Hr).
  pose proof (enumerate_roots_stamped dd (S idx)) as F.
  rewrite Forall_forall in F. destruct (F r Hr) as (c & Sc & Hc).
  rewrite Er in Sc.
  assert (S0 : stamped idx (key ++ "_" ++ Str.of_nat idx)) by now exists key.
  pose proof (stamped_inj _ _ _ Sc S0). lia.
Qed.

(** X6: in the graph of a run that returns, the roots are, in the order
    of the table, one node per key that is no boundary name, labelled
    with the key and identified by the key and its position in the
    table, the boundary names counted; these identifiers are pairwise
    distinct. *)
Theorem roots_follow_table (depth : nat) (dd : RuleTable) (n : nat)
    (dot' : Digraph) (dd' : RuleTable) (n' : nat) :
  expand depth dd n = Ok (dot', dd', n') ->
  roots dot' = enumerate_roots 0 dd /\ NoDup (map fst (roots dot')).
Proof.
  unfold expand. intros H. apply main_loop_roots in H. simpl in H.
  rewrite H. split; [reflexivity | apply enumerate_roots_distinct].
Qed.

(** The table with a rule for every boundary name: only the first entry
    gets a root. *)
Lemma roots_follow_table_witness :
  expand 2 full_table 0 = Ok full_expand /\
  roots (fst (fst full_expand)) = enumerate_roots 0 full_table /\
  NoDup (map fst (roots (fst (fst full_expand)))).
Proof.
  split; [reflexivity|].
  apply (roots_follow_table 2 full_table 0 (fst (fst full_expand))
           (snd (fst full_expand)) (snd full_expand)).
  reflexivity.
Defined.

(** ** All the identifiers of a graph *)

Lemma of_nat_not_empty (n : nat) : Str.of_nat n <> "".
Proof.
  intros E. assert (H : n = 0).
  { unfold Str.of_nat in E.
    pose proof (NilEmpty.usu (Nat.to_uint n)) as U. rewrite E in U.
    simpl in U. injection U as U.
    rewrite <- (Unsigned.of_to n), <- U. reflexivity. }
  subst n. discriminate E.
Qed.

Lemma stamp_prefix_inj (p q a b : string) :
  Str.forallb is_digit a = true -> Str.forallb is_digit b = true ->
  (p ++ "_" ++ a)%string = (q ++ "_" ++ b)%string -> p = q.
Proof.
  intros Ha Hb. revert q.
  induction p as [|x p IH]; intros [|y q] E; simpl in E.
  - reflexivity.
  - injection E as _ E. exfalso. exact (digits_no_underscore _ _ _ Ha E).
  - injection E as _ E. exfalso.
    exact (digits_no_underscore _ _ _ Hb (eq_sym E)).
  - injection E as -> E. f_equal. exact (IH _ E).
Qed.

Lemma stamped_ends_in_stamp (c : nat) (s : string) :
  stamped c s -> ends_in_stamp s = true.
Proof.
  intros [p ->]. induction p as [|x p IH]; simpl.
  - change (Ascii.eqb "_" "_") with true.
    rewrite digits_of_nat. simpl.
    destruct (String.eqb_spec (Str.of_nat c) "") as [E|_]; [|reflexivity].
    now apply of_nat_not_empty in E.
  - apply orb_true_iff. right. exact IH.
Qed.

(** A root identifier is no identifier made by [render], unless the key
    itself ends in an underscore and a number. *)
Lemma root_is_not_nested (key : string) (idx : nat) (id : string) :
  ends_in_stamp key = false -> nested_id id ->
  (key ++ "_" ++ Str.of_nat idx)%string <> id.
Proof.
  intros Hk (text & ctx & c & c' & -> & [p ->]) E.
  unfold fkey in E.
  replace (text ++ "_" ++ (p ++ "_" ++ Str.of_nat c') ++ "_" ++ Str.of_nat c)%string
    with ((text ++ "_" ++ p ++ "_" ++ Str.of_nat c') ++ "_" ++ Str.of_nat c)%string
    in E by (now rewrite !append_assoc).
  apply stamp_prefix_inj in E; try apply digits_of_nat.
  assert (S0 : stamped c' key).
  { exists (text ++ "_" ++ p)%string. rewrite E. now rewrite !append_assoc. }
  apply stamped_ends_in_stamp in S0. congruence.
Qed.

Lemma all_ids_app (a b : Digraph) : all_ids (a ++ b) = all_ids a ++ all_ids b.
Proof. apply flat_map_app. Qed.

(** What [render] declares are the identifiers it synthesizes, and each
    is made in a stamped context when the call is. *)
Lemma render_nested_both (depth : nat) :
  (forall key items dd n out dd' n',
     render depth [] key items dd n = Ok (out, dd', n') ->
     all_ids out = all_chain_ids out /\
     ((exists c, stamped c key) -> Forall nested_id (all_chain_ids out))) /\
  (forall alts key dd n out dd' n',
     render_rule depth [] key alts dd n = Ok (out, dd', n') ->
     all_ids out = all_chain_ids out /\
     ((exists c, stamped c key) -> Forall nested_id (all_chain_ids out))).
Proof.
  apply (render_both_ok_ind
    (fun key prev items dd n out dd' n' =>
       all_ids out = all_chain_ids out /\
       ((exists c, stamped c key) -> Forall nested_id (all_chain_ids out)))
    (fun key alts dd n out dd' n' =>
       all_ids out = all_chain_ids out /\
       ((exists c, stamped c key) -> Forall nested_id (all_chain_ids out)))).
  - intros. split; [reflexivity | constructor].
  - intros key prev s items dd n out dd' n' _ [E F].
    split; [simpl; now f_equal|].
    intros [c Sc]. constructor; [|apply F; now exists c].
    now exists s, key, (S n), c.
  - intros key prev s items dd n body dd2 n2 out dd' n' _ [E1 F1] [E2 F2].
    split.
    + change (all_ids (subgraph ?i ?c ?a body :: edge ?x ?y :: out))
        with ((i :: all_ids body) ++ all_ids out).
      change (all_chain_ids (subgraph ?i ?c ?a body :: edge ?x ?y :: out))
        with ((i :: all_chain_ids body) ++ all_chain_ids out).
      now rewrite E1, E2.
    + intros [c Sc].
      change (all_chain_ids (subgraph ?i ?c ?a body :: edge ?x ?y :: out))
        with ((i :: all_chain_ids body) ++ all_chain_ids out).
      apply Forall_app. split; [|apply F2; now exists c].
      constructor; [now exists (replace_get s), key, (S n), c|].
      apply F1. exists (S n). apply fkey_stamped.
  - intros. split; [reflexivity | constructor].
  - intros key item alts dd n out1 dd1 n1 out2 dd2 n2 [E1 F1] [E2 F2].
    split; [now rewrite all_ids_app, all_chain_ids_app, E1, E2|].
    intros Sc. rewrite all_chain_ids_app. apply Forall_app. auto.
Qed.

(** The loop of [main], for keys that end in no stamp: the identifiers
    are those of the roots and those made by [render], all distinct. *)
Lemma main_loop_all_ids (depth : nat) (pending : RuleTable) :
  forall idx size dot dd n dot' dd' n' lo,
    main_loop depth pending idx size dot dd n = Ok (dot', dd', n') ->
    forallb (fun k => negb (ends_in_stamp k)) (keys pending) = true ->
    lo <= n ->
    NoDup (all_ids dot) ->
    Forall (fun id => (exists key c, ends_in_stamp key = false /\ c < idx /\
                                     id = (key ++ "_" ++ Str.of_nat c)%string)
                      \/ (nested_id id /\ synthesized lo n id))
           (all_ids dot) ->
    NoDup (all_ids dot').
Proof.
  induction pending as [|[key items] pending IH];
    intros idx size dot dd n dot' dd' n' lo H Hk Hlo Nd Fa; simpl in H;
    destruct (negb (List.length dd =? size)); try discriminate H.
  - now injection H as <- <- <-.
  - simpl in Hk. apply andb_true_iff in Hk. destruct Hk as [Hkey Hk].
    apply negb_true_iff in Hkey.
    assert (Fa' : Forall (fun id =>
              (exists key c, ends_in_stamp key = false /\ c < S idx /\
                             id = (key ++ "_" ++ Str.of_nat c)%string)
              \/ (nested_id id /\ synthesized lo n id)) (all_ids dot)).
    { eapply Forall_impl; [|exact Fa].
      intros id [(k & c & Hs & Hc & E)|R]; [left | now right].
      exists k, c. repeat split; auto. }
    destruct (Str.mem key subgraphs);
      [now apply (IH _ _ _ _ _ _ _ _ lo H Hk Hlo Nd Fa')|].
    unfold render_rule in H. rewrite render_alts_frame in H.
    destruct (render_alts (render depth) [] _ items dd n)
      as [[[out dd1] n1]| |] eqn:E; try discriminate H.
    simpl in H.
    destruct (proj2 (render_ids_both depth) _ _ _ _ _ _ _ E)
      as (Hle & Nd1 & Fa1).
    destruct (proj2 (render_nested_both depth) _ _ _ _ _ _ _ E)
      as (Eo & Fn).
    assert (Fn' : Forall nested_id (all_chain_ids out))
      by (apply Fn; exists idx; now exists key).
    pose (root := (key ++ "_" ++ Str.of_nat idx)%string).
    assert (Ei : forall x, all_ids ((dot ++ [node x key None]) ++ out)
                           = all_ids dot ++ x :: all_chain_ids out).
    { intros x. rewrite !all_ids_app, Eo. simpl. now rewrite <- app_assoc. }
    rewrite Forall_forall in Fa, Fa1, Fn'.
    apply (IH _ _ _ _ _ _ _ _ lo H Hk); [lia | |]; rewrite Ei;
      change (key ++ String "_" (Str.of_nat idx))%string with root.
    + apply NoDup_app; [exact Nd | |].
      * constructor; [|exact Nd1].
        intros Hi. exact (root_is_not_nested key idx root Hkey (Fn' _ Hi) eq_refl).
      * intros id Hd [<-|Hi].
        -- destruct (Fa _ Hd) as [(k & c & Hs & Hc & Er)|[Rn _]].
           ++ assert (S1 : stamped c root) by (rewrite Er; now exists k).
              assert (S2 : stamped idx root) by now exists key.
              pose proof (stamped_inj _ _ _ S1 S2). lia.
           ++ exact (root_is_not_nested key idx root Hkey Rn eq_refl).
        -- destruct (Fa _ Hd) as [(k & c & Hs & Hc & Er)|[_ Rs]].
           ++ exact (root_is_not_nested k c id Hs (Fn' _ Hi) (eq_sym Er)).
           ++ destruct (synthesized_stamped _ _ _ Rs) as (c1 & S1 & H1).
              destruct (synthesized_stamped _ _ _ (Fa1 _ Hi))
                as (c2 & S2 & H2).
              pose proof (stamped_inj _ _ _ S1 S2). lia.
    + apply Forall_app. split; [|constructor].
      * apply Forall_forall. intros id Hd.
        destruct (Fa _ Hd) as [(k & c & Hs & Hc & Er)|[Rn Rs]].
        -- left. exists k, c. repeat split; auto.
        -- right. split; [exact Rn|].
           eapply synthesized_weaken; [| |exact Rs]; lia.
      * left. exists key, idx. repeat split; auto.
      * apply Forall_forall. intros id Hi. right. split; [now apply Fn'|].
        eapply synthesized_weaken; [| |exact (Fa1 _ Hi)]; lia.
Qed.

(** X7: when no key of the table ends in an underscore followed by a
    number, all the identifiers declared in a run that returns, those of
    the roots and those of the nodes and clusters at any depth, are
    pairwise distinct. *)
Theorem all_identifiers_distinct (depth : nat) (dd : RuleTable) (n : nat)
    (dot' : Digraph) (dd' : RuleTable) (n' : nat) :
  forallb (fun k => negb (ends_in_stamp k)) (keys dd) = true ->
  expand depth dd n = Ok (dot', dd', n') ->
  NoDup (all_ids dot').
Proof.
  unfold expand. intros Hk H.
  apply (main_loop_all_ids depth dd 0 (List.length dd) [] dd n dot' dd' n' n
           H Hk); [lia | constructor | constructor].
Qed.

(** The sample grammar. *)
Lemma all_identifiers_distinct_witness :
  forallb (fun k => negb (ends_in_stamp k)) (keys sample_table) = true /\
  expand 3 sample_table 0 = Ok sample_expand /\
  NoDup (all_ids (fst (fst sample_expand))).
Proof.
  split; [reflexivity|]. split; [reflexivity|].
  apply (all_identifiers_distinct 3 sample_table 0
           (fst (fst sample_expand)) (snd (fst sample_expand))
           (snd sample_expand)); reflexivity.
Defined.

(** ** Edges *)

Lemma all_edges_app (a b : Digraph) :
  all_edges (a ++ b) = all_edges a ++ all_edges b.
Proof. apply flat_map_app. Qed.

Lemma render_edges_both (depth : nat) :
  (forall key items dd n out dd' n',
     render depth [] key items dd n = Ok (out, dd', n') ->
     Permutation (map snd (all_edges out)) (all_chain_ids out) /\
     Forall (fun e => fst e = key \/ In (fst e) (all_chain_ids out))
            (all_edges out)) /\
  (forall alts key dd n out dd' n',
     render_rule depth [] key alts dd n = Ok (out, dd', n') ->
     Permutation (map snd (all_edges out)) (all_chain_ids out) /\
     Forall (fun e => fst e = key \/ In (fst e) (all_chain_ids out))
            (all_edges out)).
Proof.
  apply (render_both_ok_ind
    (fun key prev items dd n out dd' n' =>
       Permutation (map snd (all_edges out)) (all_chain_ids out) /\
       Forall (fun e => fst e = prev \/ In (fst e) (all_chain_ids out))
              (all_edges out))
    (fun key alts dd n out dd' n' =>
       Permutation (map snd (all_edges out)) (all_chain_ids out) /\
       Forall (fun e => fst e = key \/ In (fst e) (all_chain_ids out))
              (all_edges out))).
  - intros. split; constructor.
  - intros key prev s items dd n out dd' n' _ [Hp Hf].
    split; [simpl; now constructor|].
    simpl. constructor; [now left|].
    eapply Forall_impl; [|exact Hf]. simpl.
    intros e [He|He]; right; auto.
  - intros key prev s items dd n body dd2 n2 out dd' n' _ [Hp1 Hf1] [Hp2 Hf2].
    change (all_chain_ids (subgraph ?i ?c ?a body :: edge ?x ?y :: out))
      with ((i :: all_chain_ids body) ++ all_chain_ids out).
    change (all_edges (subgraph ?i ?c ?a body :: edge ?x ?y :: out))
      with (all_edges body ++ (x, y) :: all_edges out).
    split.
    + rewrite map_app. simpl.
      eapply Permutation_trans; [apply Permutation_sym, Permutation_middle|].
      constructor. now apply Permutation_app.
    + apply Forall_app. split; [|constructor; [now left|]].
      * eapply Forall_impl; [|exact Hf1]. simpl.
        intros e [He|He]; right; [now left|].
        right. apply in_or_app. now left.
      * eapply Forall_impl; [|exact Hf2]. simpl.
        intros e [He|He]; right; [now left|].
        right. apply in_or_app. now right.
  - intros. split; constructor.
  - intros key item alts dd n out1 dd1 n1 out2 dd2 n2 [Hp1 Hf1] [Hp2 Hf2].
    rewrite all_edges_app, all_chain_ids_app, map_app.
    split; [now apply Permutation_app|].
    apply Forall_app. split.
    + eapply Forall_impl; [|exact Hf1]. simpl.
      intros e [He|He]; [now left|]. right. apply in_or_app. now left.
    + eapply Forall_impl; [|exact Hf2]. simpl.
      intros e [He|He]; [now left|]. right. apply in_or_app. now right.
Qed.

Lemma main_loop_edges (depth : nat) (pending : RuleTable) :
  forall idx size dot dd n dot' dd' n',
    main_loop depth pending idx size dot dd n = Ok (dot', dd', n') ->
    Permutation (map snd (all_edges dot)) (all_chain_ids dot) ->
    Forall (fun e => In (fst e) (all_ids dot)) (all_edges dot) ->
    Permutation (map snd (all_edges dot')) (all_chain_ids dot') /\
    Forall (fun e => In (fst e) (all_ids dot')) (all_edges dot').
Proof.
  induction pending as [|[key items] pending IH];
    intros idx size dot dd n dot' dd' n' H Hp Hf; simpl in H;
    destruct (negb (List.length dd =? size)); try discriminate H.
  - injection H as <- <- <-. auto.
  - destruct (Str.mem key subgraphs); [now apply (IH _ _ _ _ _ _ _ _ H)|].
    unfold render_rule in H. rewrite render_alts_frame in H.
    destruct (render_alts (render depth) [] _ items dd n)
      as [[[out dd1] n1]| |] eqn:E; try discriminate H.
    simpl in H.
    destruct (proj2 (render_edges_both depth) _ _ _ _ _ _ _ E) as [Hp1 Hf1].
    destruct (proj2 (render_nested_both depth) _ _ _ _ _ _ _ E) as [Eo _].
    apply (IH _ _ _ _ _ _ _ _ H).
    + rewrite !all_edges_app, !all_chain_ids_app, !map_app. simpl.
      rewrite !app_nil_r. now apply Permutation_app.
    + rewrite !all_edges_app, !all_ids_app. simpl. rewrite app_nil_r.
      apply Forall_app. split.
      * eapply Forall_impl; [|exact Hf]. simpl. intros e He.
        apply in_or_app. left. apply in_or_app. now left.
      * eapply Forall_impl; [|exact Hf1]. simpl. intros e [He|He].
        -- apply in_or_app. left. apply in_or_app. right. now left.
        -- apply in_or_app. right. now rewrite Eo.
Qed.

(** What the loop of [main] hands to [render] is a stamped context, so
    every identifier that [render] makes in it is nested. *)
Lemma main_loop_nested (depth : nat) (pending : RuleTable) :
  forall idx size dot dd n dot' dd' n',
    main_loop depth pending idx size dot dd n = Ok (dot', dd', n') ->
    Forall nested_id (all_chain_ids dot) ->
    Forall nested_id (all_chain_ids dot').
Proof.
  induction pending as [|[key items] pending IH];
    intros idx size dot dd n dot' dd' n' H Fa; simpl in H;
    destruct (negb (List.length dd =? size)); try discriminate H.
  - now injection H as <- <- <-.
  - destruct (Str.mem key subgraphs); [now apply (IH _ _ _ _ _ _ _ _ H)|].
    unfold render_rule in H. rewrite render_alts_frame in H.
    destruct (render_alts (render depth) [] _ items dd n)
      as [[[out dd1] n1]| |] eqn:E; try discriminate H.
    simpl in H.
    destruct (proj2 (render_nested_both depth) _ _ _ _ _ _ _ E) as [_ Fn].
    apply (IH _ _ _ _ _ _ _ _ H).
    rewrite !all_chain_ids_app. simpl. rewrite app_nil_r.
    apply Forall_app. split; [exact Fa|].
    apply Fn. exists idx. now exists key.
Qed.

(** A root is identified by a key of the table and a number. *)
Lemma enumerate_roots_keys (dd : RuleTable) :
  forall idx r,
    In r (enumerate_roots idx dd) ->
    exists key c, In key (keys dd) /\
                  fst r = (key ++ "_" ++ Str.of_nat c)%string.
Proof.
  induction dd as [|[key items] dd IH]; intros idx r Hr; simpl in Hr;
    [contradiction|].
  assert (T : In r (enumerate_roots (S idx) dd) ->
              exists k c, In k (keys ((key, items) :: dd)) /\
                          fst r = (k ++ "_" ++ Str.of_nat c)%string).
  { intros Hi. destruct (IH _ _ Hi) as (k & c & Hk & E).
    exists k, c. split; [now right | exact E]. }
  destruct (Str.mem key subgraphs); [now apply T|].
  destruct Hr as [<-|Hr]; [|now apply T].
  exists key, idx. split; [now left | reflexivity].
Qed.

(** X8: in the graph of a run that returns, the heads of the edges are
    exactly the identifiers of the nodes and clusters that chain
    expansion made, and no two edges have the same head: each such node
    and cluster is the head of exactly one edge.  Every edge starts at
    an identifier that the graph declares.  When no key of the table
    ends in an underscore followed by a number, no edge leads to a
    root. *)
Theorem one_edge_into_each_element (depth : nat) (dd : RuleTable) (n : nat)
    (dot' : Digraph) (dd' : RuleTable) (n' : nat) :
  expand depth dd n = Ok (dot', dd', n') ->
  Permutation (map snd (all_edges dot')) (all_chain_ids dot') /\
  NoDup (map snd (all_edges dot')) /\
  Forall (fun e => In (fst e) (all_ids dot')) (all_edges dot') /\
  (forallb (fun k => negb (ends_in_stamp k)) (keys dd) = true ->
   Forall (fun e => ~ In (snd e) (map fst (roots dot'))) (all_edges dot')).
Proof.
  unfold expand. intros H.
  destruct (main_loop_edges _ _ _ _ _ _ _ _ _ _ H) as [Hp Hf];
    [constructor | constructor |].
  destruct (main_loop_ids depth dd 0 (List.length dd) [] dd n dot' dd' n' n H)
    as (_ & Nd & _); [lia | constructor | constructor |].
  pose proof (main_loop_nested _ _ _ _ _ _ _ _ _ _ H (Forall_nil _)) as Fn.
  pose proof (main_loop_roots _ _ _ _ _ _ _ _ _ _ H) as Er. simpl in Er.
  split; [exact Hp|].
  split; [exact (Permutation_NoDup (Permutation_sym Hp) Nd)|].
  split; [exact Hf|].
  intros Hk. apply Forall_forall. intros e He Hr.
  assert (Hc : In (snd e) (all_chain_ids dot')).
  { apply (Permutation_in _ Hp). now apply in_map. }
  rewrite Forall_forall in Fn. specialize (Fn _ Hc).
  rewrite Er in Hr. apply in_map_iff in Hr. destruct Hr as (r & E & Hr).
  destruct (enumerate_roots_keys _ _ _ Hr) as (key & c & Hkey & Ek).
  rewrite forallb_forall in Hk. specialize (Hk _ Hkey).
  apply negb_true_iff in Hk.
  apply (root_is_not_nested key c (snd e) Hk Fn). now rewrite <- E, Ek.
Qed.

(** The sample grammar. *)
Lemma one_edge_into_each_element_witness :
  expand 3 sample_table 0 = Ok sample_expand /\
  forallb (fun k => negb (ends_in_stamp k)) (keys sample_table) = true /\
  Permutation (map snd (all_edges (fst (fst sample_expand))))
              (all_chain_ids (fst (fst sample_expand))) /\
  NoDup (map snd (all_edges (fst (fst sample_expand)))) /\
  Forall (fun e => In (fst e) (all_ids (fst (fst sample_expand))))
         (all_edges (fst (fst sample_expand))) /\
  Forall (fun e => ~ In (snd e) (map fst (roots (fst (fst sample_expand)))))
         (all_edges (fst (fst sample_expand))).
Proof.
  split; [reflexivity|]. split; [reflexivity|].
  destruct (one_edge_into_each_element 3 sample_table 0
              (fst (fst sample_expand)) (snd (fst sample_expand))
              (snd sample_expand) eq_refl) as (Hp & Nd & Hf & Hr).
  split; [exact Hp|]. split; [exact Nd|]. split; [exact Hf|].
  apply Hr. reflexivity.
Defined.

(** The condition on the keys is needed: with a key that ends in an
    underscore and a number, the identifier that [render] makes for a
    symbol can be that of a root, and the edge to the symbol then leads
    to the root. *)
Lemma stamped_key_root_gets_an_edge :
  main 1 ("a ::= b ." ++ nl ++ "b_a_0 ::= c ." ++ nl) 0 =
  Ok ([node "a_0" "a" None;
       node "b_a_0_1" "b" (Some "blue");
       edge "a_0" "b_a_0_1";
       node "b_a_0_1" "b_a_0" None;
       node "c_b_a_0_1_2" "c" (Some "blue");
       edge "b_a_0_1" "c_b_a_0_1_2"],
      [("a", [["b"]]); ("b_a_0", [["c"]])], 2).
Proof. reflexivity. Qed.

(** ** A pattern with a literal matches no text without it *)

Lemma lacks_append (c : ascii) (a b : string) :
  lacks c (a ++ b) = lacks c a && lacks c b.
Proof. apply forallb_append. Qed.

Lemma lazy_none (p : ascii -> bool) (k : Re.cont) (s : string) :
  forall prev i marks,
    (forall a b pv j mk, s = (a ++ b)%string -> k pv b j mk = None) ->
    Re.lazy p k prev s i marks = None.
Proof.
  induction s as [|c s IH]; intros prev i marks Hk; simpl.
  - now rewrite (Hk "" "").
  - rewrite (Hk "" (String c s)) by reflexivity.
    destruct (p c); [|reflexivity].
    apply IH. intros a b pv j mk E. apply (Hk (String c a) b).
    simpl. now rewrite E.
Qed.

Lemma match_needs_literal (c : ascii) (pat : Re.pattern) :
  In (Re.Lit c) pat ->
  forall s prev i marks,
    lacks c s = true -> Re.match_here pat prev s i marks = None.
Proof.
  induction pat as [|a pat IH]; intros Hin; [destruct Hin|].
  assert (Hs : forall s prev i marks,
             lacks c s = true ->
             a <> Re.Lit c -> Re.match_here pat prev s i marks = None).
  { intros s prev i marks L Ha. apply IH; [|exact L].
    destruct Hin as [E|Hi]; [contradiction | exact Hi]. }
  assert (Hsuf : forall s, lacks c s = true -> a <> Re.Lit c ->
             forall x b pv j mk, s = (x ++ b)%string ->
               Re.match_here pat pv b j mk = None).
  { intros s L Ha x b pv j mk E. apply Hs; [|exact Ha].
    rewrite E, lacks_append in L. now apply andb_true_iff in L. }
  intros s prev i marks L.
  destruct a as [|d|p|p|p|]; cbn [Re.match_here].
  - destruct (Re.at_line_start prev); [|reflexivity].
    apply Hs; [exact L | discriminate].
  - destruct s as [|x s]; [reflexivity|].
    simpl in L. apply andb_true_iff in L. destruct L as [Lx L].
    destruct (Ascii.eqb_spec d x) as [<-|_]; [|reflexivity].
    destruct (Ascii.eqb_spec c d) as [->|Hne].
    + rewrite ?Ascii.eqb_refl in Lx. discriminate Lx.
    + apply Hs; [exact L|]. intros [= ->]. contradiction.
  - apply greedy_none. apply (Hsuf s L). discriminate.
  - destruct s as [|x s]; [reflexivity|].
    destruct (p x); [|reflexivity].
    simpl in L. apply andb_true_iff in L. destruct L as [_ L].
    apply greedy_none. apply (Hsuf s L). discriminate.
  - apply lazy_none. apply (Hsuf s L). discriminate.
  - apply Hs; [exact L | discriminate].
Qed.

Lemma scan_needs_literal (c : ascii) (pat : Re.pattern) (s : string) :
  In (Re.Lit c) pat ->
  forall prev i skip, lacks c s = true -> Re.scan pat prev s i skip = [].
Proof.
  intros Hin. induction s as [|x s IH]; intros prev i skip L; [reflexivity|].
  simpl. rewrite (match_needs_literal c pat Hin _ _ _ _ L).
  simpl in L. apply andb_true_iff in L. destruct L as [_ L].
  destruct skip; now apply IH.
Qed.

(** X9: a text in which no colon, or no equals sign, or no dot occurs
    holds no rule: [parse] yields nothing. *)
Theorem parse_needs_marker_and_dot (code : string) :
  lacks ":" code = true \/ lacks "=" code = true \/ lacks "." code = true ->
  parse code = [].
Proof.
  intros H. unfold parse, Re.findall.
  assert (E : Re.scan rule_pattern None code 0 0 = []).
  { destruct H as [H|[H|H]];
      [apply (scan_needs_literal ":") | apply (scan_needs_literal "=")
       | apply (scan_needs_literal ".")];
      try exact H; unfold rule_pattern; simpl; tauto. }
  now rewrite E.
Qed.

(** A rule that lacks its closing dot. *)
Lemma parse_needs_marker_and_dot_witness :
  (lacks ":" ("A ::= b c" ++ nl) = true \/
   lacks "=" ("A ::= b c" ++ nl) = true \/
   lacks "." ("A ::= b c" ++ nl) = true) /\
  parse ("A ::= b c" ++ nl) = [].
Proof.
  split; [right; right; reflexivity|].
  apply (parse_needs_marker_and_dot ("A ::= b c" ++ nl)).
  right; right; reflexivity.
Defined.

Lemma remove_nothing (s : string) (i : nat) : Re.remove [] s i = s.
Proof. now destruct s. Qed.

(** X10: stripping annotations leaves alone a text in which no opening
    parenthesis, or no closing one, occurs. *)
Theorem unbalanced_annotation_kept (s : string) :
  lacks "(" s = true \/ lacks ")" s = true -> Re.sub_empty no_paren s = s.
Proof.
  intros H. unfold Re.sub_empty.
  assert (E : Re.scan no_paren None s 0 0 = []).
  { destruct H as [H|H];
      [apply (scan_needs_literal "(") | apply (scan_needs_literal ")")];
      try exact H; unfold no_paren; simpl; tauto. }
  rewrite E. apply remove_nothing.
Qed.

(** A symbol with an annotation that is not closed. *)
Lemma unbalanced_annotation_kept_witness :
  (lacks "(" "expr(A" = true \/ lacks ")" "expr(A" = true) /\
  Re.sub_empty no_paren "expr(A" = "expr(A".
Proof.
  split; [right; reflexivity|].
  apply (unbalanced_annotation_kept "expr(A"). right; reflexivity.
Defined.

(** ** Splitting a right-hand side into words *)

Lemma word_starts (t rest : string) :
  word_ok t = true -> stops Chars.isspace (t ++ rest) = true.
Proof.
  unfold word_ok. destruct t as [|c t]; [discriminate|].
  simpl. intros H. apply andb_true_iff in H. now destruct H as [H _].
Qed.

Lemma word_not_empty (t rest : string) :
  word_ok t = true -> (t ++ rest)%string <> "".
Proof. unfold word_ok. now destruct t. Qed.

Lemma lstrip_word (t rest : string) :
  word_ok t = true -> Str.lstrip (t ++ rest) = (t ++ rest)%string.
Proof.
  unfold word_ok. destruct t as [|c t]; [discriminate|].
  simpl. intros H. apply andb_true_iff in H. destruct H as [H _].
  unfold Chars.nonspace in H. apply negb_true_iff in H. now rewrite H.
Qed.

Lemma lstrip_blank_prefix (w rest : string) :
  blank w = true -> Str.lstrip (w ++ rest) = Str.lstrip rest.
Proof.
  unfold blank. induction w as [|c w IH]; simpl; [reflexivity|].
  intros H. apply andb_true_iff in H. destruct H as [Hc Hw].
  rewrite Hc. now apply IH.
Qed.

Lemma rstrip_blank (s : string) : blank s = true -> Str.rstrip s = "".
Proof.
  unfold blank. induction s as [|c s IH]; simpl; [reflexivity|].
  intros H. apply andb_true_iff in H. destruct H as [Hc Hs].
  now rewrite (IH Hs), Hc.
Qed.

Lemma rstrip_app (a b : string) :
  Str.rstrip b <> "" -> Str.rstrip (a ++ b) = (a ++ Str.rstrip b)%string.
Proof.
  intros Hb. induction a as [|c a IH]; simpl; [reflexivity|].
  rewrite IH. destruct (a ++ Str.rstrip b)%string eqn:E; [|reflexivity].
  destruct a; simpl in E; [contradiction | discriminate].
Qed.

Lemma rstrip_word_blank (t trail : string) :
  word_ok t = true -> blank trail = true ->
  Str.rstrip (t ++ trail) = t.
Proof.
  unfold word_ok. intros H Ht. apply andb_true_iff in H.
  destruct H as [Hne Hn]. clear Hne.
  induction t as [|c t IH]; simpl; [now apply rstrip_blank|].
  simpl in Hn. apply andb_true_iff in Hn. destruct Hn as [Hc Hn].
  rewrite (IH Hn). destruct t; [|reflexivity].
  unfold Chars.nonspace in Hc. apply negb_true_iff in Hc. now rewrite Hc.
Qed.

Lemma append_nil_r (a : string) : (a ++ "")%string = a.
Proof. induction a as [|x a IH]; simpl; [reflexivity | now rewrite IH]. Qed.

Lemma rstrip_spaced (ps : list (string * string)) :
  forall t trail,
    word_ok t = true -> pairs_ok ps = true -> blank trail = true ->
    Str.rstrip (t ++ spaced ps ++ trail) = (t ++ spaced ps)%string.
Proof.
  induction ps as [|[w t'] ps IH]; intros t trail Ht Hp Hb; simpl.
  - rewrite append_nil_r. now apply rstrip_word_blank.
  - simpl in Hp. apply andb_true_iff in Hp. destruct Hp as [Hwt Hp].
    apply andb_true_iff in Hwt. destruct Hwt as [_ Ht'].
    replace (t ++ (w ++ t' ++ spaced ps) ++ trail)%string
      with ((t ++ w) ++ (t' ++ spaced ps ++ trail))%string
      by (now rewrite !append_assoc).
    rewrite rstrip_app; rewrite (IH t' trail Ht' Hp Hb).
    + now rewrite !append_assoc.
    + now apply word_not_empty.
Qed.

Lemma scan_starts (pat : Re.pattern) (s : string) :
  forall prev i skip m,
    In m (Re.scan pat prev s i skip) -> i + skip <= fst (fst m).
Proof.
  induction s as [|c s IH]; intros prev i skip m Hm; [destruct Hm|].
  simpl in Hm. destruct skip as [|k].
  - destruct (Re.match_here pat prev (String c s) i []) as [[mk e]|].
    + destruct Hm as [<-|Hm]; [simpl; lia|].
      apply IH in Hm. lia.
    + apply IH in Hm. lia.
  - apply IH in Hm. lia.
Qed.

(** A character that is no blank goes to the current piece. *)
Lemma pieces_char (c : ascii) (s : string) prev i cur :
  Chars.isspace c = false ->
  Re.pieces (Re.scan spaces prev (String c s) i 0) (String c s) i cur
  = Re.pieces (Re.scan spaces (Some c) s (S i) 0) s (S i)
              (cur ++ String c "").
Proof.
  intros Hc.
  assert (E : Re.scan spaces prev (String c s) i 0
              = Re.scan spaces (Some c) s (S i) 0).
  { unfold spaces. simpl. now rewrite Hc. }
  rewrite E.
  pose proof (scan_starts spaces s (Some c) (S i) 0) as B.
  destruct (Re.scan spaces (Some c) s (S i) 0) as [|[[b x] e] ms].
  - destruct s; simpl; [reflexivity | now rewrite append_assoc].
  - specialize (B _ (or_introl eq_refl)). simpl in B.
    cbn [Re.pieces]. now rewrite (proj2 (Nat.ltb_lt i b)) by lia.
Qed.

Lemma pieces_word (t : string) :
  forall rest prev i cur,
    Str.forallb Chars.nonspace t = true ->
    Re.pieces (Re.scan spaces prev (t ++ rest) i 0) (t ++ rest) i cur
    = Re.pieces (Re.scan spaces (last_char t prev) rest
                         (i + String.length t) 0)
                rest (i + String.length t) (cur ++ t).
Proof.
  induction t as [|c t IH]; intros rest prev i cur Ht;
    cbn [append String.length last_char].
  - now rewrite Nat.add_0_r, append_nil_r.
  - simpl in Ht. apply andb_true_iff in Ht. destruct Ht as [Hc Ht].
    unfold Chars.nonspace in Hc. apply negb_true_iff in Hc.
    rewrite (pieces_char c (t ++ rest) prev i cur Hc).
    rewrite (IH rest (Some c) (S i) _ Ht).
    now rewrite Nat.add_succ_comm, append_assoc.
Qed.

(** Inside a match nothing is kept; at its end a new piece starts. *)
Lemma pieces_inside (a : string) :
  forall rest b x e ms j cur,
    a <> "" -> b <= j -> j + String.length a = e ->
    Re.pieces ((b, x, e) :: ms) (a ++ rest) j cur
    = cur :: Re.pieces ms rest e "".
Proof.
  induction a as [|c a IH]; intros rest b x e ms j cur Ha Hb He;
    [contradiction|].
  simpl in He. cbn [append Re.pieces].
  rewrite (proj2 (Nat.ltb_ge j b)) by lia.
  destruct a as [|d a].
  - simpl in He. rewrite (proj2 (Nat.ltb_ge (S j) e)) by lia.
    simpl. f_equal. f_equal. lia.
  - rewrite (proj2 (Nat.ltb_lt (S j) e)) by (simpl in He; lia).
    apply IH; [discriminate | lia | simpl in *; lia].
Qed.

Lemma match_blanks (w rest : string) prev i :
  gap_ok w = true -> stops Chars.isspace rest = true ->
  Re.match_here spaces prev (w ++ rest)%string i []
  = Some ([], i + String.length w).
Proof.
  unfold gap_ok, blank. destruct w as [|c w]; [discriminate|].
  simpl. intros Hw Hr. apply andb_true_iff in Hw. destruct Hw as [Hc Hw].
  rewrite Hc. rewrite (greedy_run Chars.isspace _ w (Some c) rest (S i) []
                         ([], S i + String.length w) Hw Hr eq_refl).
  f_equal. f_equal. lia.
Qed.

(** The step of the scan at a match that covers [a]. *)
Lemma scan_hit (pat : Re.pattern) (a b : string) prev i mk :
  a <> "" ->
  Re.match_here pat prev (a ++ b)%string i []
  = Some (mk, i + String.length a) ->
  Re.scan pat prev (a ++ b) i 0
  = (i, mk, i + String.length a)
      :: Re.scan pat (last_char a prev) b (i + String.length a) 0.
Proof.
  destruct a as [|c a]; [contradiction|]. intros _ H.
  cbn [append Re.scan]. cbn [append] in H. rewrite H. f_equal.
  replace (i + String.length (String c a) - i - 1) with (String.length a)
    by (simpl; lia).
  rewrite scan_skip. simpl. now rewrite <- Nat.add_succ_comm.
Qed.

Lemma pieces_gap (w rest : string) prev i cur :
  gap_ok w = true -> stops Chars.isspace rest = true ->
  Re.pieces (Re.scan spaces prev (w ++ rest) i 0) (w ++ rest) i cur
  = cur :: Re.pieces (Re.scan spaces (last_char w prev) rest
                              (i + String.length w) 0)
                     rest (i + String.length w) "".
Proof.
  intros Hw Hr.
  assert (Hne : w <> "") by (unfold gap_ok in Hw; now destruct w).
  rewrite (scan_hit spaces w rest prev i [] Hne (match_blanks _ _ _ _ Hw Hr)).
  now apply pieces_inside.
Qed.

Lemma pieces_spaced (ps : list (string * string)) :
  forall prev i cur,
    pairs_ok ps = true ->
    Re.pieces (Re.scan spaces prev (spaced ps) i 0) (spaced ps) i cur
    = cur :: map snd ps.
Proof.
  induction ps as [|[w t] ps IH]; intros prev i cur Hp; [reflexivity|].
  simpl in Hp. apply andb_true_iff in Hp. destruct Hp as [Hwt Hp].
  apply andb_true_iff in Hwt. destruct Hwt as [Hw Ht].
  cbn [spaced map snd].
  rewrite pieces_gap; [| exact Hw | now apply word_starts].
  rewrite pieces_word
    by (unfold word_ok in Ht; apply andb_true_iff in Ht; apply Ht).
  now rewrite IH.
Qed.

(** The words of a right-hand side, whatever blanks stand around them. *)
Lemma split_strip_spaced (lead t trail : string)
    (ps : list (string * string)) :
  blank lead = true -> word_ok t = true -> pairs_ok ps = true ->
  blank trail = true ->
  Re.split spaces (Str.strip (lead ++ t ++ spaced ps ++ trail))
  = t :: map snd ps.
Proof.
  intros Hl Ht Hp Hb. unfold Str.strip.
  rewrite lstrip_blank_prefix, lstrip_word, rstrip_spaced by assumption.
  unfold Re.split.
  rewrite pieces_word
    by (unfold word_ok in Ht; apply andb_true_iff in Ht; apply Ht).
  now rewrite pieces_spaced.
Qed.

(** ** Matches do not depend on where the text stands *)

Section Shift.

Variable d : nat.

Lemma greedy_shift (p : ascii -> bool) (k : Re.cont) :
  shifts d k -> shifts d (Re.greedy p k).
Proof.
  intros Hk prev s. revert prev.
  induction s as [|c s IH]; intros prev i mk; simpl; [apply Hk|].
  destruct (p c); [|apply Hk].
  rewrite <- Nat.add_succ_r, IH.
  destruct (Re.greedy p k (Some c) s (S i) mk); [reflexivity | apply Hk].
Qed.

Lemma lazy_shift (p : ascii -> bool) (k : Re.cont) :
  shifts d k -> shifts d (Re.lazy p k).
Proof.
  intros Hk prev s. revert prev.
  induction s as [|c s IH]; intros prev i mk; simpl; rewrite Hk;
    destruct (k prev _ i mk); try reflexivity.
  destruct (p c); [|reflexivity].
  now rewrite <- Nat.add_succ_r, IH.
Qed.

Lemma match_shift (pat : Re.pattern) : shifts d (Re.match_here pat).
Proof.
  induction pat as [|a pat IH]; intros prev s i mk.
  - reflexivity.
  - destruct a as [|c|p|p|p|]; cbn [Re.match_here].
    + destruct (Re.at_line_start prev); [apply IH | reflexivity].
    + destruct s as [|x s]; [reflexivity|].
      destruct (Ascii.eqb c x); [|reflexivity].
      rewrite <- Nat.add_succ_r. apply IH.
    + now apply greedy_shift.
    + destruct s as [|x s]; [reflexivity|].
      destruct (p x); [|reflexivity].
      rewrite <- Nat.add_succ_r. now apply greedy_shift.
    + now apply lazy_shift.
    + rewrite <- (IH prev s i (mk ++ [i])). now rewrite map_app.
Qed.

Lemma scan_shift (pat : Re.pattern) (s : string) :
  forall prev i skip,
    Re.scan pat prev s (d + i) skip
    = map (shift_match d) (Re.scan pat prev s i skip).
Proof.
  induction s as [|c s IH]; intros prev i skip; [reflexivity|].
  simpl. destruct skip as [|k].
  - pose proof (match_shift pat prev (String c s) i []) as M.
    simpl in M. rewrite M.
    destruct (Re.match_here pat prev (String c s) i []) as [[mk e]|];
      simpl.
    + rewrite <- Nat.add_succ_r, IH. unfold shift_match at 2. simpl.
      now replace (d + e - (d + i) - 1) with (e - i - 1) by lia.
    + now rewrite <- Nat.add_succ_r, IH.
  - now rewrite <- Nat.add_succ_r, IH.
Qed.

End Shift.

Lemma substring_shift (pre s : string) (a m : nat) :
  substring (String.length pre + a) m (pre ++ s) = substring a m s.
Proof. induction pre as [|c pre IH]; simpl; [reflexivity | exact IH]. Qed.

Lemma groups_shift (pre s : string) :
  forall mk,
    Re.groups (pre ++ s) (map (Nat.add (String.length pre)) mk)
    = Re.groups s mk.
Proof.
  fix IH 1. intros [|a [|b mk]]; simpl; try reflexivity.
  rewrite IH, substring_shift. do 2 f_equal. lia.
Qed.

(** ** Only [^] looks at the previous character *)

Section Prev.

Lemma greedy_blind (p : ascii -> bool) (k : Re.cont) :
  blind k -> blind (Re.greedy p k).
Proof.
  intros Hk prev prev' s. revert prev prev'.
  induction s as [|c s IH]; intros prev prev' i mk; simpl; [apply Hk|].
  now rewrite (Hk prev prev').
Qed.

Lemma lazy_blind (p : ascii -> bool) (k : Re.cont) :
  blind k -> blind (Re.lazy p k).
Proof.
  intros Hk prev prev' s. revert prev prev'.
  induction s as [|c s IH]; intros prev prev' i mk; simpl;
    now rewrite (Hk prev prev').
Qed.

Lemma match_blind (pat : Re.pattern) :
  no_bol pat = true -> blind (Re.match_here pat).
Proof.
  induction pat as [|a pat IH]; intros Hb prev prev' s i mk;
    [reflexivity|].
  simpl in Hb. apply andb_true_iff in Hb. destruct Hb as [Ha Hb].
  specialize (IH Hb).
  destruct a as [|c|p|p|p|]; cbn [Re.match_here]; try discriminate Ha.
  - reflexivity.
  - now apply greedy_blind.
  - reflexivity.
  - now apply lazy_blind.
  - apply IH.
Qed.

End Prev.

Lemma rule_pattern_at (prev : option ascii) (s : string) (i : nat) :
  Re.match_here rule_pattern prev s i []
  = if Re.at_line_start prev then Re.match_here after_bol None s i []
    else None.
Proof.
  change rule_pattern with (Re.Bol :: after_bol). cbn [Re.match_here].
  destruct (Re.at_line_start prev); [|reflexivity].
  now apply match_blind.
Qed.

Lemma scan_line_start (s : string) prev prev' i skip :
  Re.at_line_start prev = Re.at_line_start prev' ->
  Re.scan rule_pattern prev s i skip = Re.scan rule_pattern prev' s i skip.
Proof.
  intros E. destruct s as [|c s]; [reflexivity|].
  cbn [Re.scan]. now rewrite !rule_pattern_at, E.
Qed.

(** ** A rule on its line *)

Lemma blank_lacks_dot (s : string) : blank s = true -> lacks "." s = true.
Proof.
  unfold blank, lacks. induction s as [|c s IH]; simpl; [reflexivity|].
  intros H. apply andb_true_iff in H. destruct H as [Hc Hs].
  now rewrite (space_is_not_dot c Hc), (IH Hs).
Qed.

Lemma lazy_to_first_dot (body : string) :
  forall prev tail i marks,
    lacks "." body = true ->
    Re.lazy Chars.anychar (Re.match_here [Re.Mark; Re.Lit "."%char])
            prev (body ++ "." ++ tail) i marks
    = Some (marks ++ [i + String.length body], S (i + String.length body)).
Proof.
  unfold lacks.
  induction body as [|c body IH]; intros prev tail i marks Hb; simpl in *.
  - now rewrite Nat.add_0_r.
  - apply andb_true_iff in Hb. destruct Hb as [Hc Hb].
    apply negb_true_iff in Hc. rewrite Hc. rewrite IH by exact Hb.
    now rewrite Nat.add_succ_comm.
Qed.

(** The match of a rule at the start of a text. *)
Lemma match_rule_line (ind : string) (c : ascii) (l ws1 body tail : string) :
  blank ind = true ->
  Chars.nonspace c = true -> Str.forallb Chars.nonspace l = true ->
  gap_ok ws1 = true -> lacks "." body = true ->
  Re.match_here rule_pattern None
    (ind ++ String c l ++ ws1 ++ "::=" ++ body ++ "." ++ tail)%string 0 []
  = Some ([String.length ind;
           String.length ind + String.length (String c l);
           String.length (ind ++ String c l ++ ws1 ++ "::=");
           String.length (ind ++ String c l ++ ws1 ++ "::=")
           + String.length body],
          0 + String.length (rule_text ind (String c l) ws1 body)).
Proof.
  intros Hi Hc Hl Hw Hb.
  assert (Hs : Chars.isspace c = false)
    by (unfold Chars.nonspace in Hc; now apply negb_true_iff).
  unfold gap_ok in Hw. apply andb_true_iff in Hw. destruct Hw as [Hne Hw].
  rewrite rule_pattern_at. cbn [Re.at_line_start]. unfold after_bol.
  change (Re.match_here (Re.Star ?q :: ?pat))
    with (Re.greedy q (Re.match_here pat)).
  apply greedy_run; [exact Hi | simpl; now rewrite Hs |].
  change (String c l ++ ?t)%string with (String c (l ++ t)%string).
  change (Re.match_here (Re.Mark :: Re.Plus ?q :: ?pat) ?pv
            (String c ?t) ?j [])
    with (if q c then Re.greedy q (Re.match_here pat) (Some c) t (S j) [j]
          else None).
  rewrite Hc.
  apply greedy_run; [exact Hl | |].
  { destruct ws1 as [|x ws1]; [discriminate Hne|].
    unfold blank in Hw. simpl in Hw.
    apply andb_true_iff in Hw. destruct Hw as [Hx _].
    simpl. unfold Chars.nonspace. now rewrite Hx. }
  unfold after_left.
  change (Re.match_here (Re.Mark :: Re.Star ?q :: ?pat) ?pv ?t ?j ?mk)
    with (Re.greedy q (Re.match_here pat) pv t j (mk ++ [j])).
  apply greedy_run; [exact Hw | reflexivity |].
  change ("::=" ++ ?t)%string
    with (String ":" (String ":" (String "=" t))).
  unfold from_marker. cbn [Re.match_here]. rewrite !Ascii.eqb_refl.
  change (Re.match_here (Re.Mark :: Re.LazyStar ?q :: ?pat) ?pv ?t ?j ?mk)
    with (Re.lazy q (Re.match_here pat) pv t j (mk ++ [j])).
  rewrite lazy_to_first_dot by exact Hb.
  unfold rule_text. rewrite !length_append. simpl.
  rewrite !length_append. simpl.
  apply f_equal. apply f_equal2; [|lia].
  repeat (apply f_equal2; [lia|]). reflexivity.
Qed.

Lemma rule_text_app (ind left ws1 body tail : string) :
  (rule_text ind left ws1 body ++ tail)%string
  = (ind ++ left ++ ws1 ++ "::=" ++ body ++ "." ++ tail)%string.
Proof. unfold rule_text. now rewrite !append_assoc. Qed.

Lemma last_char_append (a b : string) :
  forall prev, last_char (a ++ b) prev = last_char b (last_char a prev).
Proof. induction a as [|c a IH]; intros prev; simpl; [reflexivity | apply IH]. Qed.

Lemma last_char_rule_text (ind left ws1 body : string) prev :
  last_char (rule_text ind left ws1 body) prev = Some "."%char.
Proof.
  unfold rule_text.
  replace (ind ++ left ++ ws1 ++ "::=" ++ body ++ ".")%string
    with ((ind ++ left ++ ws1 ++ "::=" ++ body) ++ ".")%string
    by (now rewrite !append_assoc).
  now rewrite last_char_append.
Qed.

Lemma rule_text_not_empty (ind : string) (c : ascii) (l ws1 body : string) :
  rule_text ind (String c l) ws1 body <> "".
Proof. unfold rule_text. destruct ind; discriminate. Qed.

(** After the dot, nothing on the same line starts a rule. *)
Lemma scan_same_line (junk : string) :
  forall s prev i,
    lacks Chars.newline junk = true -> Re.at_line_start prev = false ->
    Re.scan rule_pattern prev (junk ++ s) i 0
    = Re.scan rule_pattern (last_char junk prev) s
                           (i + String.length junk) 0
    /\ Re.at_line_start (last_char junk prev) = false.
Proof.
  unfold lacks.
  induction junk as [|x junk IH]; intros s prev i Hj Hp.
  - simpl. now rewrite Nat.add_0_r.
  - simpl in Hj. apply andb_true_iff in Hj. destruct Hj as [Hx Hj].
    apply negb_true_iff in Hx.
    assert (Hx' : Re.at_line_start (Some x) = false)
      by (simpl; now rewrite Ascii.eqb_sym).
    destruct (IH s (Some x) (S i) Hj Hx') as [E1 E2].
    cbn [append Re.scan last_char String.length].
    rewrite rule_pattern_at, Hp, E1. split; [|exact E2].
    now rewrite Nat.add_succ_comm.
Qed.

(** The scan of a text that starts with a rule. *)
Lemma scan_rule_line (ind : string) (c : ascii) (l ws1 body tail : string) :
  blank ind = true ->
  Chars.nonspace c = true -> Str.forallb Chars.nonspace l = true ->
  gap_ok ws1 = true -> lacks "." body = true ->
  Re.scan rule_pattern None (rule_text ind (String c l) ws1 body ++ tail) 0 0
  = (0, [String.length ind;
         String.length ind + String.length (String c l);
         String.length (ind ++ String c l ++ ws1 ++ "::=");
         String.length (ind ++ String c l ++ ws1 ++ "::=")
         + String.length body],
     0 + String.length (rule_text ind (String c l) ws1 body))
    :: Re.scan rule_pattern (Some "."%char) tail
         (0 + String.length (rule_text ind (String c l) ws1 body)) 0.
Proof.
  intros Hi Hc Hl Hw Hb.
  pose proof (match_rule_line ind c l ws1 body tail Hi Hc Hl Hw Hb) as M.
  rewrite <- rule_text_app in M.
  rewrite (scan_hit _ _ _ _ _ _ (rule_text_not_empty _ _ _ _ _) M).
  now rewrite last_char_rule_text.
Qed.

Lemma groups_rule_line (ind left ws1 body tail : string) :
  Re.groups (rule_text ind left ws1 body ++ tail)
    [String.length ind;
     String.length ind + String.length left;
     String.length (ind ++ left ++ ws1 ++ "::=");
     String.length (ind ++ left ++ ws1 ++ "::=") + String.length body]
  = [left; body].
Proof.
  unfold Re.groups. f_equal; [|f_equal].
  - rewrite rule_text_app.
    replace (String.length ind + String.length left - String.length ind)
      with (String.length left) by lia.
    now rewrite substring_skip, substring_prefix.
  - replace (rule_text ind left ws1 body ++ tail)%string
      with ((ind ++ left ++ ws1 ++ "::=") ++ body ++ "." ++ tail)%string
      by (unfold rule_text; now rewrite !append_assoc).
    replace (String.length (ind ++ left ++ ws1 ++ "::=") + String.length body
             - String.length (ind ++ left ++ ws1 ++ "::="))
      with (String.length body) by lia.
    now rewrite substring_skip, substring_prefix.
Qed.

Lemma findall_shifted (pre rest : string) :
  map (fun m => Re.groups (pre ++ rest) (snd (fst m)))
      (map (shift_match (String.length pre))
           (Re.scan rule_pattern None rest 0 0))
  = Re.findall rule_pattern rest.
Proof.
  unfold Re.findall. rewrite map_map. apply map_ext.
  intros [[b mk] e]. simpl. apply groups_shift.
Qed.

(** What [re.findall] gives for a text that starts with a rule: the rule,
    then what it gives for the text after the end of the line. *)
Lemma findall_rule_line (ind : string) (c : ascii)
    (l ws1 body junk : string) :
  blank ind = true ->
  Chars.nonspace c = true -> Str.forallb Chars.nonspace l = true ->
  gap_ok ws1 = true -> lacks "." body = true ->
  lacks Chars.newline junk = true ->
  Re.findall rule_pattern (rule_text ind (String c l) ws1 body ++ junk)
  = [[String c l; body]] /\
  forall rest,
    Re.findall rule_pattern
      (rule_text ind (String c l) ws1 body ++ junk ++ nl ++ rest)
    = [String c l; body] :: Re.findall rule_pattern rest.
Proof.
  intros Hi Hc Hl Hw Hb Hj. split.
  - unfold Re.findall. rewrite scan_rule_line by assumption.
    cbn [map fst snd]. rewrite groups_rule_line. f_equal.
    pose proof (scan_same_line junk "" (Some "."%char)
                  (0 + String.length (rule_text ind (String c l) ws1 body))
                  Hj eq_refl) as [E _].
    rewrite append_nil_r in E. rewrite E. reflexivity.
  - intros rest.
    set (R := rule_text ind (String c l) ws1 body).
    unfold Re.findall at 1. unfold R at 2.
    rewrite scan_rule_line by assumption. fold R.
    cbn [map fst snd]. unfold R at 1. rewrite groups_rule_line. f_equal.
    destruct (scan_same_line junk (nl ++ rest) (Some "."%char)
                (0 + String.length R) Hj eq_refl) as [E Hp].
    rewrite E. unfold nl at 2. cbn [append Re.scan].
    rewrite rule_pattern_at, Hp.
    rewrite (scan_line_start rest (Some Chars.newline) None _ 0 eq_refl).
    replace (S (0 + String.length R + String.length junk))
      with (String.length (R ++ junk ++ nl) + 0)
      by (rewrite !length_append; simpl; lia).
    rewrite scan_shift.
    replace (R ++ junk ++ nl ++ rest)%string
      with ((R ++ junk ++ nl) ++ rest)%string
      by (now rewrite !append_assoc).
    apply findall_shifted.
Qed.

Lemma tokens_ok_pairs (ps : list (string * string)) :
  tokens_ok ps = true -> pairs_ok ps = true /\ lacks "." (spaced ps) = true.
Proof.
  induction ps as [|[w t] ps IH]; simpl; [auto|].
  intros H. apply andb_true_iff in H. destruct H as [Hwt Hp].
  apply andb_true_iff in Hwt. destruct Hwt as [Hw Ht].
  unfold token_ok in Ht. apply andb_true_iff in Ht. destruct Ht as [Ht Hd].
  destruct (IH Hp) as [P D]. rewrite Hw, Ht, P. split; [reflexivity|].
  rewrite !lacks_append, Hd, D.
  unfold gap_ok in Hw. apply andb_true_iff in Hw. destruct Hw as [_ Hw].
  now rewrite (blank_lacks_dot w Hw).
Qed.

(** [parse] on a text that starts with a rule whose right-hand side is a
    sequence of tokens. *)
Lemma parse_rule_line (ind left ws1 lead t trail junk : string)
    (ps : list (string * string)) :
  blank ind = true -> word_ok left = true -> gap_ok ws1 = true ->
  blank lead = true -> token_ok t = true -> tokens_ok ps = true ->
  blank trail = true -> lacks Chars.newline junk = true ->
  parse (rule_text ind left ws1 (lead ++ t ++ spaced ps ++ trail) ++ junk)
  = [(Re.sub_empty no_paren left,
      map (Re.sub_empty no_paren) (t :: map snd ps))] /\
  forall rest,
    parse (rule_text ind left ws1 (lead ++ t ++ spaced ps ++ trail)
           ++ junk ++ nl ++ rest)
    = (Re.sub_empty no_paren left,
       map (Re.sub_empty no_paren) (t :: map snd ps)) :: parse rest.
Proof.
  intros Hi Hleft Hw Hlead Ht Hp Htr Hj.
  unfold token_ok in Ht. apply andb_true_iff in Ht. destruct Ht as [Ht Hd].
  destruct (tokens_ok_pairs ps Hp) as [Hps Hpd].
  assert (Hb : lacks "." (lead ++ t ++ spaced ps ++ trail) = true).
  { rewrite !lacks_append, Hd, Hpd.
    now rewrite (blank_lacks_dot lead Hlead), (blank_lacks_dot trail Htr). }
  destruct left as [|c l]; [discriminate Hleft|].
  unfold word_ok in Hleft. simpl in Hleft.
  apply andb_true_iff in Hleft. destruct Hleft as [Hc Hl].
  destruct (findall_rule_line ind c l ws1 _ junk Hi Hc Hl Hw Hb Hj)
    as [F1 F2].
  assert (E : parse_rule (String c l) (lead ++ t ++ spaced ps ++ trail)
              = (Re.sub_empty no_paren (String c l),
                 map (Re.sub_empty no_paren) (t :: map snd ps))).
  { unfold parse_rule. now rewrite split_strip_spaced. }
  split.
  - unfold parse. rewrite F1. cbn [map nth]. now rewrite E.
  - intros rest. unfold parse at 1. rewrite F2. cbn [map nth].
    now rewrite E.
Qed.

(** X11: a rule is extracted from its line whatever the layout: with any
    indentation, at least one blank before the marker, any blanks
    (newlines included) around and between the tokens of its right-hand
    side, and anything but a newline after its dot, [parse] yields the
    left-hand side and the tokens, each without its annotations, and
    goes on with the text after the end of the line as if it stood
    alone. *)
Theorem rule_line_extracted (ind left ws1 lead t trail junk : string)
    (ps : list (string * string)) :
  blank ind = true -> word_ok left = true -> gap_ok ws1 = true ->
  blank lead = true -> token_ok t = true -> tokens_ok ps = true ->
  blank trail = true -> lacks Chars.newline junk = true ->
  parse (rule_text ind left ws1 (lead ++ t ++ spaced ps ++ trail) ++ junk)
  = [(Re.sub_empty no_paren left,
      map (Re.sub_empty no_paren) (t :: map snd ps))] /\
  forall rest,
    parse (rule_text ind left ws1 (lead ++ t ++ spaced ps ++ trail)
           ++ junk ++ nl ++ rest)
    = (Re.sub_empty no_paren left,
       map (Re.sub_empty no_paren) (t :: map snd ps)) :: parse rest.
Proof. apply parse_rule_line. Qed.

(** A rule on three lines, with annotations, followed by a comment and
    another rule. *)
Lemma rule_line_extracted_witness :
  blank "  " = true /\ word_ok "expr(A)" = true /\ gap_ok " " = true /\
  blank (nl ++ "   ") = true /\ token_ok "expr(B)" = true /\
  tokens_ok [(" ", "PLUS"); ((nl ++ "   ")%string, "expr(C)")] = true /\
  blank nl = true /\ lacks Chars.newline " // sum" = true /\
  parse (rule_text "  " "expr(A)" " "
           ((nl ++ "   ") ++ "expr(B)"
            ++ spaced [(" ", "PLUS"); ((nl ++ "   ")%string, "expr(C)")]
            ++ nl)
         ++ " // sum" ++ nl ++ "x ::= Y .")
  = [("expr", ["expr"; "PLUS"; "expr"]); ("x", ["Y"])].
Proof.
  do 8 (split; [reflexivity|]).
  rewrite (proj2 (rule_line_extracted "  " "expr(A)" " "
                    (nl ++ "   ")%string "expr(B)" nl " // sum"
                    [(" ", "PLUS"); ((nl ++ "   ")%string, "expr(C)")]
                    eq_refl eq_refl eq_refl eq_refl eq_refl eq_refl
                    eq_refl eq_refl) "x ::= Y .").
  reflexivity.
Defined.

(** ** Printing and reading back *)

Lemma plain_tokens_ok (ts : list string) :
  forallb plain_token ts = true ->
  tokens_ok (map (fun t => (" ", t)) ts) = true /\
  map (Re.sub_empty no_paren) ts = ts.
Proof.
  induction ts as [|t ts IH]; simpl; [auto|].
  intros H. apply andb_true_iff in H. destruct H as [Ht Hts].
  unfold plain_token in Ht. apply andb_true_iff in Ht. destruct Ht as [Ht Hp].
  destruct (IH Hts) as [T S]. rewrite Ht, T, S. split; [reflexivity|].
  f_equal. now apply sub_empty_no_paren.
Qed.

Lemma parse_format_rule (r : string * list string) (rest : string) :
  rule_ok r = true ->
  parse (format_rule r ++ nl ++ rest) = r :: parse rest.
Proof.
  destruct r as [left ts]. unfold rule_ok. cbn [fst snd]. intros H.
  apply andb_true_iff in H. destruct H as [H Hts].
  apply andb_true_iff in H. destruct H as [H Hne].
  apply andb_true_iff in H. destruct H as [Hl Hlp].
  destruct ts as [|t ts]; [discriminate Hne|].
  simpl in Hts. apply andb_true_iff in Hts. destruct Hts as [Ht Hts].
  unfold plain_token in Ht. apply andb_true_iff in Ht. destruct Ht as [Ht Hp].
  destruct (plain_tokens_ok ts Hts) as [T S].
  pose proof (proj2 (parse_rule_line "" left " " " " t " " ""
                       (map (fun t => (" ", t)) ts)
                       eq_refl Hl eq_refl eq_refl Ht T eq_refl eq_refl)
                    rest) as P.
  unfold format_rule. cbn [fst snd map spaced].
  replace ((" " ++ t ++ spaced (map (fun t0 => (" ", t0)) ts)) ++ " ")%string
    with (" " ++ t ++ spaced (map (fun t0 => (" ", t0)) ts) ++ " ")%string
    by (now rewrite !append_assoc).
  change ("" ++ nl ++ rest)%string with (nl ++ rest)%string in P.
  rewrite P. f_equal. f_equal.
  - now apply sub_empty_no_paren.
  - cbn [map]. rewrite (sub_empty_no_paren t Hp). f_equal.
    rewrite (map_map (fun t0 : string => (" ", t0)) snd). cbn [snd].
    rewrite map_id. exact S.
Qed.

(** X12: printing rules one per line and reading the text back gives the
    rules: [parse] takes every rule of such a file, in order, and
    nothing else. *)
Theorem parse_format_file (rules : list (string * list string)) :
  forallb rule_ok rules = true -> parse (format_file rules) = rules.
Proof.
  induction rules as [|r rules IH]; intros H; [reflexivity|].
  simpl in H. apply andb_true_iff in H. destruct H as [Hr Hrs].
  cbn [format_file]. rewrite parse_format_rule by exact Hr.
  now rewrite IH.
Qed.

(** Three rules, two of them for the same nonterminal. *)
Lemma parse_format_file_witness :
  forallb rule_ok [("statement", ["object"; "EOL"]);
                   ("object", ["LP"; "expr"; "RP"]);
                   ("statement", ["PRINT"])] = true /\
  parse (format_file [("statement", ["object"; "EOL"]);
                      ("object", ["LP"; "expr"; "RP"]);
                      ("statement", ["PRINT"])])
  = [("statement", ["object"; "EOL"]);
     ("object", ["LP"; "expr"; "RP"]);
     ("statement", ["PRINT"])].
Proof.
  split; [reflexivity|].
  apply (parse_format_file [("statement", ["object"; "EOL"]);
                            ("object", ["LP"; "expr"; "RP"]);
                            ("statement", ["PRINT"])]).
  reflexivity.
Defined.

(** ** The order of the keys *)

Lemma first_seen_ext (l : list string) :
  forall seen seen',
    (forall x, Str.mem x seen = Str.mem x seen') ->
    first_seen seen l = first_seen seen' l.
Proof.
  induction l as [|x l IH]; intros seen seen' H; simpl; [reflexivity|].
  rewrite (H x). destruct (Str.mem x seen'); [now apply IH|].
  f_equal. apply IH. intros y. unfold Str.mem.
  fold (Str.mem y seen). fold (Str.mem y seen'). now rewrite H.
Qed.

Lemma mem_app (x : string) (a b : list string) :
  Str.mem x (a ++ b) = Str.mem x a || Str.mem x b.
Proof.
  induction a as [|y a IH]; simpl; [reflexivity|].
  unfold Str.mem. fold (Str.mem x (a ++ b)). fold (Str.mem x a).
  now rewrite IH, orb_assoc.
Qed.

Lemma fold_keys (rules : list (string * list string)) :
  forall dd,
    keys (fold_left (fun dd r => dd_append dd (fst r) (snd r)) rules dd)
    = keys dd ++ first_seen (keys dd) (map fst rules).
Proof.
  induction rules as [|[l r] rules IH]; intros dd; simpl.
  - now rewrite app_nil_r.
  - rewrite IH, keys_dd_append.
    destruct (Str.mem l (keys dd)) eqn:E; [reflexivity|].
    rewrite <- app_assoc. simpl. do 2 f_equal.
    apply first_seen_ext. intros x. rewrite mem_app.
    unfold Str.mem at 2 3. fold (Str.mem x (keys dd)).
    simpl. now rewrite orb_false_r, orb_comm.
Qed.

(** X13: the keys of the table that [main] builds stand in the order in
    which the left-hand sides first occur in the text; this is the order
    in which the expander numbers the roots. *)
Theorem build_table_key_order (rules : list (string * list string)) :
  keys (build_table rules) = first_seen [] (map fst rules).
Proof. unfold build_table. now rewrite fold_keys. Qed.

(** ** Self-reference *)

(** X14: when a boundary name occurs in one of its own alternatives,
    expanding any sequence that holds it fails with [RecursionError],
    whatever depth the stack allows, the graph, the context and the
    counter. *)
Theorem self_reference_always_overflows (a : string)
    (alts0 : list (list string)) (alt0 : list string) (dd : RuleTable)
    (items : list string) :
  opens_cluster a = true -> lookup (replace_get a) dd = Some alts0 ->
  In alt0 alts0 -> In a alt0 -> In a items ->
  forall depth dot key n,
    render depth dot key items dd n = RecursionError.
Proof.
  intros B L Ha Hi Hit depth dot key n.
  now apply (self_reference_overflows a alts0 alt0 B Ha Hi).
Qed.

(** The rule [lvalue ::= lvalue DOT x .] and a statement that uses it. *)
Lemma self_reference_always_overflows_witness :
  opens_cluster "lvalue" = true /\
  lookup (replace_get "lvalue") [("lvalue", [["ID"]; ["lvalue"; "DOT"; "x"]])]
    = Some [["ID"]; ["lvalue"; "DOT"; "x"]] /\
  In ["lvalue"; "DOT"; "x"] [["ID"]; ["lvalue"; "DOT"; "x"]] /\
  In "lvalue" ["lvalue"; "DOT"; "x"] /\
  In "lvalue" ["PRINT"; "lvalue"] /\
  render 100 [] "S_0" ["PRINT"; "lvalue"]
    [("lvalue", [["ID"]; ["lvalue"; "DOT"; "x"]])] 0 = RecursionError.
Proof.
  split; [reflexivity|]. split; [reflexivity|].
  split; [right; left; reflexivity|]. split; [left; reflexivity|].
  split; [right; left; reflexivity|].
  apply (self_reference_always_overflows "lvalue"
           [["ID"]; ["lvalue"; "DOT"; "x"]] ["lvalue"; "DOT"; "x"]
           [("lvalue", [["ID"]; ["lvalue"; "DOT"; "x"]])]
           ["PRINT"; "lvalue"]);
    first [reflexivity | right; left; reflexivity | left; reflexivity].
Defined.

(** ** Clusters and leaves *)

Lemma all_clusters_app (a b : Digraph) :
  all_clusters (a ++ b) = all_clusters a ++ all_clusters b.
Proof. apply flat_map_app. Qed.

Lemma all_leaves_app (a b : Digraph) :
  all_leaves (a ++ b) = all_leaves a ++ all_leaves b.
Proof. apply flat_map_app. Qed.

Lemma leaf_color_two (s v : string) :
  leaf_color s v = "red" \/ leaf_color s v = "blue".
Proof. unfold leaf_color. destruct (Str.isupper v || in_replace s); auto. Qed.

Lemma render_kinds_both (depth : nat) :
  (forall key items dd n out dd' n',
     render depth [] key items dd n = Ok (out, dd', n') ->
     Forall cluster_ok (all_clusters out) /\ Forall leaf_ok (all_leaves out)) /\
  (forall alts key dd n out dd' n',
     render_rule depth [] key alts dd n = Ok (out, dd', n') ->
     Forall cluster_ok (all_clusters out) /\ Forall leaf_ok (all_leaves out)).
Proof.
  apply (render_both_ok_ind
    (fun key prev items dd n out dd' n' =>
       Forall cluster_ok (all_clusters out) /\ Forall leaf_ok (all_leaves out))
    (fun key alts dd n out dd' n' =>
       Forall cluster_ok (all_clusters out) /\ Forall leaf_ok (all_leaves out))).
  - intros. split; constructor.
  - intros key prev s items dd n out dd' n' B [Hc Hl].
    split; [exact Hc|]. simpl. constructor; [|exact Hl].
    split; [exact B | apply leaf_color_two].
  - intros key prev s items dd n body dd2 n2 out dd' n' B [Hc1 Hl1] [Hc2 Hl2].
    change (all_clusters (subgraph ?i ?c ?a body :: edge ?x ?y :: out))
      with (((c, a) :: all_clusters body) ++ all_clusters out).
    change (all_leaves (subgraph ?i ?c ?a body :: edge ?x ?y :: out))
      with (all_leaves body ++ all_leaves out).
    split; apply Forall_app; split; auto.
    constructor; [|exact Hc1].
    destruct (cluster_label s B) as [E Hne].
    repeat split; simpl; [exact B | now rewrite E].
  - intros. split; constructor.
  - intros key item alts dd n out1 dd1 n1 out2 dd2 n2 [Hc1 Hl1] [Hc2 Hl2].
    rewrite all_clusters_app, all_leaves_app.
    split; apply Forall_app; split; auto.
Qed.

Lemma main_loop_kinds (depth : nat) (pending : RuleTable) :
  forall idx size dot dd n dot' dd' n',
    main_loop depth pending idx size dot dd n = Ok (dot', dd', n') ->
    Forall cluster_ok (all_clusters dot) -> Forall leaf_ok (all_leaves dot) ->
    Forall cluster_ok (all_clusters dot') /\ Forall leaf_ok (all_leaves dot').
Proof.
  induction pending as [|[key items] pending IH];
    intros idx size dot dd n dot' dd' n' H Hc Hl; simpl in H;
    destruct (negb (List.length dd =? size)); try discriminate H.
  - injection H as <- <- <-. auto.
  - destruct (Str.mem key subgraphs); [now apply (IH _ _ _ _ _ _ _ _ H)|].
    unfold render_rule in H. rewrite render_alts_frame in H.
    destruct (render_alts (render depth) [] _ items dd n)
      as [[[out dd1] n1]| |] eqn:E; try discriminate H.
    simpl in H.
    destruct (proj2 (render_kinds_both depth) _ _ _ _ _ _ _ E) as [Hc1 Hl1].
    apply (IH _ _ _ _ _ _ _ _ H).
    + rewrite !all_clusters_app. simpl. rewrite app_nil_r.
      apply Forall_app. auto.
    + rewrite !all_leaves_app. simpl. rewrite app_nil_r.
      apply Forall_app. auto.
Qed.

(** X15: in the graph of a run that returns, every cluster, at any
    depth, carries a boundary name other than [even] with the box and
    green attributes and that name for label, and every colored node
    carries a label that is no boundary name and is red or blue. *)
Theorem clusters_and_leaves_are_told_apart (depth : nat) (dd : RuleTable)
    (n : nat) (dot' : Digraph) (dd' : RuleTable) (n' : nat) :
  expand depth dd n = Ok (dot', dd', n') ->
  Forall cluster_ok (all_clusters dot') /\ Forall leaf_ok (all_leaves dot').
Proof.
  unfold expand. intros H.
  apply (main_loop_kinds _ _ _ _ _ _ _ _ _ _ H); constructor.
Qed.

(** The sample grammar. *)
Lemma clusters_and_leaves_are_told_apart_witness :
  expand 3 sample_table 0 = Ok sample_expand /\
  Forall cluster_ok (all_clusters (fst (fst sample_expand))) /\
  Forall leaf_ok (all_leaves (fst (fst sample_expand))).
Proof.
  split; [reflexivity|].
  apply (clusters_and_leaves_are_told_apart 3 sample_table 0
           (fst (fst sample_expand)) (snd (fst sample_expand))
           (snd sample_expand)).
  reflexivity.
Defined.
